(** * User Dashboard (src/App.js): the derivation pipeline and its controls

    A shallow embedding of the [App] component: the component state is a
    record, every event handler is a function on that record, and the values
    computed during a render ([filteredUsers], [sortedUsers], [currentUsers])
    are functions of the state.

    Conventions of the model.
    - JavaScript numbers that hold page numbers, lengths and pixel offsets are
      integers here ([Z]); [Math.ceil (n / d)] is the integer ceiling.
    - JavaScript strings are modelled twice. In [Host] a string is its list
      of UTF-16 code units, and the built-ins [toLowerCase] and
      [localeCompare], which depend on Unicode data and on the host's locale,
      are parameters of the pipeline; what is assumed of them is said where
      it is used ([Host.AsciiLaw], [Consistent]). The results on the
      pipeline alone (filter, sort, company menu, displayed records) are
      stated there. The component state and its events use [string]s of
      8-bit characters, with a [toLowerCase] that maps the letters A-Z to a-z
      and leaves every other character alone. That is the built-in on Basic
      Latin text only; on such text the two models show the same records
      ([basic_latin_pipeline]).
    - Only the sign of the result of [localeCompare] is used by
      [Array.prototype.sort], hence the result type [comparison].
    - An event handler reads the state of the render that created it.
      [handleEvent] runs each handler on the current state, which is what
      happens when every effect has run before the next event. The scroll
      listener is installed by an effect, so it can be older than the state;
      [step] keeps the listener apart from the state for that reason. *)

From stdpp Require Import base list strings sorting gmap.
From Stdlib Require Import ZArith Ascii.

Local Open Scope Z_scope.

(** ** JavaScript strings *)

Module JsString.

(** One character of [String.prototype.toLowerCase], on the ASCII range. *)
Definition lowerChar (c : ascii) : ascii :=
  let n := N_of_ascii c in
  if ((65 <=? n) && (n <=? 90))%N then ascii_of_N (n + 32) else c.

(** [s.toLowerCase()] on Basic Latin text. On other text the built-in does
    more (it lowers letters outside A-Z, and some by their context); the
    pipeline over such text is [Host]'s, where the built-in is a parameter. *)
Fixpoint toLowerCase (s : string) : string :=
  match s with
  | EmptyString => EmptyString
  | String c s' => String (lowerChar c) (toLowerCase s')
  end.

(** [s.startsWith(t)]: [t] is a prefix of [s]. *)
Fixpoint startsWith (s t : string) : bool :=
  match t, s with
  | EmptyString, _ => true
  | String _ _, EmptyString => false
  | String b t', String a s' => bool_decide (a = b) && startsWith s' t'
  end.

(** [s.includes(t)]: [t] occurs in [s] at some position. The search tries
    position 0, then the positions of the tail. *)
Fixpoint includes (s t : string) : bool :=
  startsWith s t ||
  match s with
  | EmptyString => false
  | String _ s' => includes s' t
  end.

(** Truthiness of a string in a condition: only the empty string is falsy. *)
Definition truthy (s : string) : bool :=
  match s with EmptyString => false | String _ _ => true end.

End JsString.

Import JsString.

(** ** Records of the collection *)

Record Company := { company_name : string }.

Record User := {
  id : Z;
  name : string;
  email : string;
  phone : string;
  company : Company
}.

Inductive SortOrder := asc | desc.

(** ** Filtering (the [filteredUsers] memo) *)

Definition isNameMatch (search : string) (user : User) : bool :=
  includes (toLowerCase (name user)) (toLowerCase search).

Definition isCompanyMatch (companyFilter : string) (user : User) : bool :=
  if truthy companyFilter
  then bool_decide
         (toLowerCase (company_name (company user)) = toLowerCase companyFilter)
  else true.

Definition filteredUsers (users : list User) (search companyFilter : string)
  : list User :=
  List.filter
    (fun user => isNameMatch search user && isCompanyMatch companyFilter user)
    users.

(** ** What the prose of the specification calls case-insensitive matching *)

(** Two strings are equal up to case when they have the same length and agree
    character by character once the case of letters is ignored. *)
Inductive ci_equal : string → string → Prop :=
  | ci_equal_nil : ci_equal EmptyString EmptyString
  | ci_equal_cons a b s t :
      lowerChar a = lowerChar b → ci_equal s t →
      ci_equal (String a s) (String b t).

(** ** Sorting (the [sortedUsers] memo) *)

(** [Array.prototype.sort] with a comparison callback. The language standard
    requires the sort to be stable and, for a consistent callback, to return
    the elements in callback order; a stable insertion sort is the reference
    behaviour. The callback's result is used through its sign only: [Lt] for a
    negative number, [Eq] for zero, [Gt] for a positive number. *)
Section array_sort.
Context {A : Type} (compareFn : A → A → comparison).

Fixpoint sort_insert (x : A) (l : list A) : list A :=
  match l with
  | [] => [x]
  | y :: l' =>
      match compareFn x y with
      | Gt => y :: sort_insert x l'
      | _ => x :: l
      end
  end.

Definition sort (l : list A) : list A := foldr sort_insert [] l.
End array_sort.

(** The callback given to [sort]: both names are lowered, then compared with
    [localeCompare], with the arguments swapped for the descending order. *)
Definition compareUsers (localeCompare : string → string → comparison)
    (sortOrder : SortOrder) (a b : User) : comparison :=
  let nameA := toLowerCase (name a) in
  let nameB := toLowerCase (name b) in
  match sortOrder with
  | asc => localeCompare nameA nameB
  | desc => localeCompare nameB nameA
  end.

(** [filteredUsers.sort(...)]. The sort works in place on the array held by
    the [filteredUsers] memo and returns that same array; the argument is the
    current content of that array, which after an earlier render is the order
    the earlier sort left behind. *)
Definition sortedUsers (localeCompare : string → string → comparison)
    (filteredUsers : list User) (sortOrder : SortOrder) : list User :=
  sort (compareUsers localeCompare sortOrder) filteredUsers.

(** Comparison by character codes, one collation among others. *)
Fixpoint codeCompare (s t : string) : comparison :=
  match s, t with
  | EmptyString, EmptyString => Eq
  | EmptyString, String _ _ => Lt
  | String _ _, EmptyString => Gt
  | String a s', String b t' =>
      match (N_of_ascii a ?= N_of_ascii b)%N with
      | Eq => codeCompare s' t'
      | c => c
      end
  end.

(** ** Pagination *)

Definition usersPerPage : Z := 5.

(** [Math.ceil(n / d)] for an integer [n] and a positive integer [d]. *)
Definition ceilDiv (n d : Z) : Z := - ((- n) / d).

(** How [Array.prototype.slice] reads one of its two indices: a negative
    index counts from the end, and the result is kept within [0, len]. *)
Definition relativeIndex (len k : Z) : Z :=
  if k <? 0 then Z.max (len + k) 0 else Z.min k len.

(** [l.slice(start, end)] *)
Definition slice {A} (l : list A) (start_ end_ : Z) : list A :=
  let len := Z.of_nat (length l) in
  let k := relativeIndex len start_ in
  let final := relativeIndex len end_ in
  take (Z.to_nat (final - k)) (drop (Z.to_nat k) l).

Definition indexOfLastUser (currentPage : Z) : Z := currentPage * usersPerPage.

Definition indexOfFirstUser (currentPage : Z) : Z :=
  indexOfLastUser currentPage - usersPerPage.

Definition currentUsers (sortedUsers : list User) (currentPage : Z)
  : list User :=
  slice sortedUsers (indexOfFirstUser currentPage) (indexOfLastUser currentPage).

(** ** Component state *)

Record AppState := {
  users : list User;
  loading : bool;
  error : option string;
  currentPage : Z;
  search : string;
  companyFilter : string;
  sortOrder : SortOrder;
  totalPages : Z;
  darkMode : bool
}.

Definition setUsers (v : list User) (s : AppState) : AppState :=
  {| users := v; loading := loading s; error := error s;
     currentPage := currentPage s; search := search s;
     companyFilter := companyFilter s; sortOrder := sortOrder s;
     totalPages := totalPages s; darkMode := darkMode s |}.

Definition setLoading (v : bool) (s : AppState) : AppState :=
  {| users := users s; loading := v; error := error s;
     currentPage := currentPage s; search := search s;
     companyFilter := companyFilter s; sortOrder := sortOrder s;
     totalPages := totalPages s; darkMode := darkMode s |}.

Definition setError (v : option string) (s : AppState) : AppState :=
  {| users := users s; loading := loading s; error := v;
     currentPage := currentPage s; search := search s;
     companyFilter := companyFilter s; sortOrder := sortOrder s;
     totalPages := totalPages s; darkMode := darkMode s |}.

Definition setCurrentPage (v : Z) (s : AppState) : AppState :=
  {| users := users s; loading := loading s; error := error s;
     currentPage := v; search := search s;
     companyFilter := companyFilter s; sortOrder := sortOrder s;
     totalPages := totalPages s; darkMode := darkMode s |}.

Definition setSearch (v : string) (s : AppState) : AppState :=
  {| users := users s; loading := loading s; error := error s;
     currentPage := currentPage s; search := v;
     companyFilter := companyFilter s; sortOrder := sortOrder s;
     totalPages := totalPages s; darkMode := darkMode s |}.

Definition setCompanyFilter (v : string) (s : AppState) : AppState :=
  {| users := users s; loading := loading s; error := error s;
     currentPage := currentPage s; search := search s;
     companyFilter := v; sortOrder := sortOrder s;
     totalPages := totalPages s; darkMode := darkMode s |}.

Definition setSortOrder (v : SortOrder) (s : AppState) : AppState :=
  {| users := users s; loading := loading s; error := error s;
     currentPage := currentPage s; search := search s;
     companyFilter := companyFilter s; sortOrder := v;
     totalPages := totalPages s; darkMode := darkMode s |}.

Definition setTotalPages (v : Z) (s : AppState) : AppState :=
  {| users := users s; loading := loading s; error := error s;
     currentPage := currentPage s; search := search s;
     companyFilter := companyFilter s; sortOrder := sortOrder s;
     totalPages := v; darkMode := darkMode s |}.

Definition setDarkMode (v : bool) (s : AppState) : AppState :=
  {| users := users s; loading := loading s; error := error s;
     currentPage := currentPage s; search := search s;
     companyFilter := companyFilter s; sortOrder := sortOrder s;
     totalPages := totalPages s; darkMode := v |}.

(** The [useState] initial values; [stored] is what
    [localStorage.getItem("darkMode")] returns. *)
Definition initialState (stored : option string) : AppState :=
  {| users := []; loading := true; error := None; currentPage := 1;
     search := ""; companyFilter := ""; sortOrder := asc; totalPages := 0;
     darkMode := bool_decide (stored = Some "true") |}.

(** The mount effect that reads [?search=] and [?company=] from the address:
    a parameter is used when it is present and not empty. *)
Definition seedFromUrl (searchParam companyParam : option string)
    (s : AppState) : AppState :=
  let s1 := match searchParam with
            | Some v => if truthy v then setSearch v s else s
            | None => s
            end in
  match companyParam with
  | Some v => if truthy v then setCompanyFilter v s1 else s1
  | None => s1
  end.

(** ** Loading the collection ([fetchUsers]) *)

(** The ways the body of the [try] block can end. *)
Inductive FetchOutcome :=
  | FetchRejected (message : string)  (* [fetch] rejects: transport failure *)
  | ResponseNotOk                     (* [response.ok] is false *)
  | JsonRejected (message : string)   (* [response.json()] rejects *)
  | JsonParsed (data : list User).    (* the array of records *)

Definition fetchUsers (o : FetchOutcome) (s : AppState) : AppState :=
  let s' :=
    match o with
    | FetchRejected message => setError (Some message) s
    | ResponseNotOk => setError (Some "Failed to fetch data.") s
    | JsonRejected message => setError (Some message) s
    | JsonParsed data =>
        setTotalPages (ceilDiv (Z.of_nat (length data)) usersPerPage)
          (setUsers data s)
    end in
  setLoading false s'.

(** What a failed outcome leaves in [error]; [None] for a parsed array. *)
Definition failureReason (o : FetchOutcome) : option string :=
  match o with
  | FetchRejected message => Some message
  | ResponseNotOk => Some "Failed to fetch data."
  | JsonRejected message => Some message
  | JsonParsed _ => None
  end.

(** ** Scrolling ([handleScroll]) *)

Record ScrollMetrics := {
  innerHeight : Z;   (* window.innerHeight *)
  scrollTop : Z;     (* document.documentElement.scrollTop *)
  scrollHeight : Z   (* document.documentElement.scrollHeight *)
}.

Definition nearBottom (m : ScrollMetrics) : bool :=
  innerHeight m + scrollTop m >=? scrollHeight m - 5.

(** The listener created by the render of state [s], run on that same
    state: the condition and the updater read the same page index. The
    listener run on a later state is [listenerScroll], below. *)
Definition handleScroll (m : ScrollMetrics) (s : AppState) : AppState :=
  if nearBottom m && (currentPage s <? totalPages s)
  then setCurrentPage (currentPage s + 1) s
  else s.

(** ** Prev and Next ([changePage]) *)

Definition changePage (direction : Z) (s : AppState) : AppState :=
  let newPage := currentPage s + direction in
  setCurrentPage (Z.min (Z.max newPage 1) (totalPages s)) s.

(** ** Rendering *)

(** The truthiness of [error]: [null] and the empty message are falsy. *)
Definition errorShown (s : AppState) : bool :=
  match error s with Some message => truthy message | None => false end.

(** The search box, the company menu, the sort button and the page buttons
    are part of the last [return] only, behind the two early returns. *)
Definition controlsRendered (s : AppState) : bool :=
  negb (loading s) && negb (errorShown s).

Section view.
Variable localeCompare : string → string → comparison.

(** The cards on screen: nothing behind the spinner or the error box, else
    [currentUsers] of this render. *)
Definition displayedUsers (s : AppState) : list User :=
  if controlsRendered s
  then currentUsers
         (sortedUsers localeCompare
            (filteredUsers (users s) (search s) (companyFilter s))
            (sortOrder s))
         (currentPage s)
  else [].
End view.

(** ** Events *)

Inductive Event :=
  | FetchSettled (o : FetchOutcome)
  | ScrollEvent (m : ScrollMetrics)
  | ClickPrev
  | ClickNext
  | SearchInput (value : string)
  | CompanySelect (value : string)
  | ClickSort
  | ClickDarkMode
  | SearchTimeout.

(** One event, handled against the state of the latest render.
    - The fetch is started once, by a mount effect; [loading] is true exactly
      until it settles, so a settled fetch is taken into account only then.
    - The scroll listener is on [window] and is there in every render.
    - A click reaches its handler only when the control is rendered and not
      [disabled].
    - The 300ms timeout calls [debounceSearch] with the [search] value of its
      render. *)
Definition handleEvent (e : Event) (s : AppState) : AppState :=
  match e with
  | FetchSettled o => if loading s then fetchUsers o s else s
  | ScrollEvent m => handleScroll m s
  | ClickPrev =>
      if controlsRendered s && negb (currentPage s =? 1)
      then changePage (-1) s else s
  | ClickNext =>
      if controlsRendered s && negb (currentPage s =? totalPages s)
      then changePage 1 s else s
  | SearchInput value => if controlsRendered s then setSearch value s else s
  | CompanySelect value =>
      if controlsRendered s then setCompanyFilter value s else s
  | ClickSort =>
      if controlsRendered s
      then setSortOrder (match sortOrder s with asc => desc | desc => asc end) s
      else s
  | ClickDarkMode =>
      if controlsRendered s then setDarkMode (negb (darkMode s)) s else s
  | SearchTimeout => setSearch (search s) s
  end.

Definition run (events : list Event) (s : AppState) : AppState :=
  foldl (fun st e => handleEvent e st) s events.

(** The page count as the specification words it: the ceiling of the size of
    the filtered set over the page size. *)
Definition specPageCount (s : AppState) : Z :=
  ceilDiv
    (Z.of_nat (length (filteredUsers (users s) (search s) (companyFilter s))))
    usersPerPage.

(** ** The search box and its 300ms timeout, with time made explicit *)

(** The part of the component that the search box touches: the [search]
    state, the one pending timeout of the effect at lines 86-91 (its due time
    and the [search] value its callback captured), and a history of every
    [setSearch] call with the time at which it ran. Times are milliseconds. *)
Module Debounce.

Record State := {
  search : string;
  timer : option (Z * string);
  calls : list (Z * string)
}.

(** The effect: its cleanup clears the previous timeout, then a new one is
    set for 300ms later with the [search] of this render. *)
Definition effect (now : Z) (s : State) : State :=
  {| search := search s; timer := Some (now + 300, search s);
     calls := calls s |}.

(** [setSearch(value)] at time [now]. A value equal to the current one
    causes no render, so the effect, which depends on [search], is not run
    again. *)
Definition setSearch (now : Z) (value : string) (s : State) : State :=
  let s' := {| search := value; timer := timer s;
               calls := calls s ++ [(now, value)] |} in
  if bool_decide (value = search s) then s' else effect now s'.

(** [debounceSearch(e)], the [onChange] handler of the search box. *)
Definition debounceSearch (now : Z) (value : string) (s : State) : State :=
  setSearch now value s.

(** The timeout callback: [debounceSearch({ target: { value: search } })]. *)
Definition fire (s : State) : State :=
  match timer s with
  | Some (due, value) =>
      debounceSearch due value
        {| search := search s; timer := None; calls := calls s |}
  | None => s
  end.

(** Time passes until [now]: a timeout that is due runs. *)
Definition advance (now : Z) (s : State) : State :=
  match timer s with
  | Some (due, _) => if due <=? now then fire s else s
  | None => s
  end.

(** The component mounts at time 0 with an empty search text. *)
Definition mount : State :=
  effect 0 {| search := ""; timer := None; calls := [] |}.

(** Input events, each with its time, in increasing order of time. *)
Definition type (inputs : list (Z * string)) (s : State) : State :=
  foldl (fun st '(now, value) => debounceSearch now value (advance now st))
    s inputs.

(** No more input: what is pending runs. *)
Definition settle (s : State) : State := fire s.

Definition keystrokes : list (Z * string) :=
  [(0, "a"); (50, "al"); (100, "ali"); (300, "alice")].

End Debounce.

(** ** Data of the scenarios *)

Definition mkUser (i : Z) (n c : string) : User :=
  {| id := i; name := n; email := ""; phone := "";
     company := {| company_name := c |} |}.

Definition john : User := mkUser 1 "John" "Acme".
Definition bob : User := mkUser 2 "Bob" "Acme".
Definition rose : User := mkUser 3 "Rose" "Initech".

Definition twelveUsers : list User :=
  [ mkUser 1 "Alice" "Acme"; mkUser 2 "Bob" "Acme"; mkUser 3 "Carol" "Acme";
    mkUser 4 "Dave" "Initech"; mkUser 5 "Eve" "Initech";
    mkUser 6 "Frank" "Initech"; mkUser 7 "Grace" "Globex";
    mkUser 8 "Heidi" "Globex"; mkUser 9 "Ivan" "Globex";
    mkUser 10 "Judy" "Umbrella"; mkUser 11 "Mallory" "Umbrella";
    mkUser 12 "Niaj" "Umbrella" ].

(** A window scrolled all the way down. *)
Definition atBottom : ScrollMetrics :=
  {| innerHeight := 800; scrollTop := 1200; scrollHeight := 2000 |}.

(** Twelve records loaded, two scrolls to the bottom, then a search text that
    only one name contains. *)
Definition searchOnLastPage : AppState :=
  run [ FetchSettled (JsonParsed twelveUsers); ScrollEvent atBottom;
        ScrollEvent atBottom; SearchInput "eve" ]
      (initialState None).

(** An empty array loaded, then a click on Next. *)
Definition nextOnEmpty : AppState :=
  run [ FetchSettled (JsonParsed []); ClickNext ] (initialState None).

(** ** Pages of a sequence, and what every render can rely on *)

(** The slices shown for the page numbers 1, 2, ... up to the ceiling of the
    length over the page size. *)
Definition pages (sortedUsers : list User) : list (list User) :=
  (λ p, currentUsers sortedUsers p)
    <$> seqZ 1 (ceilDiv (Z.of_nat (length sortedUsers)) usersPerPage).

(** What holds of the page state after any sequence of events. *)
Record PageInvariant (s : AppState) : Prop := {
  inv_totalPages :
    totalPages s = ceilDiv (Z.of_nat (length (users s))) usersPerPage;
  inv_loading : loading s = true → users s = [] ∧ currentPage s = 1;
  inv_nonempty : users s ≠ [] → 1 ≤ currentPage s ≤ totalPages s;
  inv_range : 0 ≤ currentPage s ≤ Z.max 1 (totalPages s)
}.

(** The state of a load that failed for [reason]. *)
Definition Failed (reason : string) (s : AppState) : Prop :=
  loading s = false ∧ users s = [] ∧ error s = Some reason.

(** A pending timeout holds the [search] value of the current state. *)
Definition timerHoldsSearch (s : Debounce.State) : Prop :=
  ∀ due value, Debounce.timer s = Some (due, value) → value = Debounce.search s.

(** ** The display theme *)

(** What the theme code reads and writes outside the component: the storage
    of the page and the class list of the document element. *)
Record Browser := {
  localStorage : gmap string string;
  classList : gset string
}.

(** A boolean given where a string is expected. *)
Definition stringOfBool (b : bool) : string := if b then "true" else "false".

(** [toggleDarkMode] *)
Definition toggleDarkMode (s : AppState) : AppState :=
  setDarkMode (negb (darkMode s)) s.

(** The effect at lines 65-72, run after a render with the theme [dark]. *)
Definition darkModeEffect (dark : bool) (b : Browser) : Browser :=
  {| classList := if dark then classList b ∪ {["dark"]}
                  else classList b ∖ {["dark"]};
     localStorage := <["darkMode" := stringOfBool dark]> (localStorage b) |}.

(** The component mounts in a browser: the state starts from the stored
    theme, and the effect runs after the first render. *)
Definition mountIn (b : Browser) : AppState * Browser :=
  let s := initialState (localStorage b !! "darkMode") in
  (s, darkModeEffect (darkMode s) b).

(** A click on the theme button, the render that follows and its effect. *)
Definition clickDarkMode (sb : AppState * Browser) : AppState * Browser :=
  let s := toggleDarkMode (fst sb) in
  (s, darkModeEffect (darkMode s) (snd sb)).

(** An event other than the settling of the fetch. *)
Definition isUserEvent (e : Event) : bool :=
  match e with FetchSettled _ => false | _ => true end.

(** How [loading], [error] and [users] go together after any events. *)
Record StatusInvariant (s : AppState) : Prop := {
  status_loading : loading s = true → error s = None;
  status_error : error s ≠ None → users s = []
}.

(** The inputs that set by hand what the address parameters set: the search
    text typed into the box, then the company chosen in the menu. *)
Definition seedEvents (searchParam companyParam : option string) : list Event :=
  match searchParam with
  | Some v => if truthy v then [SearchInput v] else []
  | None => []
  end ++
  match companyParam with
  | Some v => if truthy v then [CompanySelect v] else []
  | None => []
  end.

(** Before the fetch settles the page state is the initial one. *)
Definition Pending (s : AppState) : Prop :=
  loading s = true ∧ currentPage s = 1 ∧ totalPages s = 0.

(** ** The scroll listener and the render it comes from *)

(** What the closure of the scroll listener holds: [currentPage] and
    [totalPages] of the render whose effect installed it (lines 39-55). The
    effect installs a new listener after a render in which one of the two
    has changed. *)
Record Listener := {
  seenPage : Z;
  seenTotal : Z
}.

Definition installed (s : AppState) : Listener :=
  {| seenPage := currentPage s; seenTotal := totalPages s |}.

(** [handleScroll] as an installed listener runs it: the condition reads the
    values in the closure, and the updater [prevPage => prevPage + 1] is
    applied to the state as it is now. [handleScroll m s] above is the
    listener installed by the render of [s] itself. *)
Definition listenerScroll (l : Listener) (m : ScrollMetrics) (s : AppState)
  : AppState :=
  if nearBottom m && (seenPage l <? seenTotal l)
  then setCurrentPage (currentPage s + 1) s
  else s.

(** The component with the listener that is on [window] at the moment. *)
Record Mounted := {
  appState : AppState;
  scrollListener : Listener
}.

(** What happens next: an event is handled, or the effects of the latest
    render run and install the listener again. *)
Inductive Step :=
  | Handle (e : Event)
  | Effects.

Definition step (x : Step) (c : Mounted) : Mounted :=
  match x with
  | Handle (ScrollEvent m) =>
      {| appState := listenerScroll (scrollListener c) m (appState c);
         scrollListener := scrollListener c |}
  | Handle e =>
      {| appState := handleEvent e (appState c);
         scrollListener := scrollListener c |}
  | Effects =>
      {| appState := appState c; scrollListener := installed (appState c) |}
  end.

Definition steps (xs : list Step) (c : Mounted) : Mounted :=
  foldl (fun st x => step x st) c xs.

(** After mounting the effects have run once. *)
Definition mounted (s : AppState) : Mounted :=
  {| appState := s; scrollListener := installed s |}.

(** Every event followed by the effects of its render, before the next
    event is handled: this is [run]. *)
Definition promptly (events : list Event) : list Step :=
  events ≫= (λ e, [Handle e; Effects]).

(** What holds of the page state after any steps, whatever listener handled
    the scroll events. *)
Record StepInvariant (c : Mounted) : Prop := {
  step_totalPages :
    totalPages (appState c)
    = ceilDiv (Z.of_nat (length (users (appState c)))) usersPerPage;
  step_loading :
    loading (appState c) = true →
    users (appState c) = [] ∧ currentPage (appState c) = 1
    ∧ scrollListener c = installed (appState c);
  step_nonempty : users (appState c) ≠ [] → 1 ≤ currentPage (appState c);
  step_range : 0 ≤ currentPage (appState c)
}.

(** Twelve records on page 1, the listener installed, then three scroll
    events at the bottom handled before the effects run again. *)
Definition staleScrolls : Mounted :=
  steps [ Handle (FetchSettled (JsonParsed twelveUsers)); Effects;
          Handle (ScrollEvent atBottom); Handle (ScrollEvent atBottom);
          Handle (ScrollEvent atBottom) ]
        (mounted (initialState None)).

(** Twelve records loaded, then a search text that only one name contains. *)
Definition searchOnFirstPage : AppState :=
  run [FetchSettled (JsonParsed twelveUsers); SearchInput "eve"]
      (initialState None).

(** ** Comparison callbacks *)

(** What a comparison callback must satisfy for a sort to have a defined
    result: swapping the arguments swaps the sign, "before" is transitive,
    and two values that compare as equal compare alike with every third.
    Values that compare as equal need not be the same value. *)
Record Consistent {A} (compareFn : A → A → comparison) : Prop := {
  consistent_antisym a b : compareFn b a = CompOpp (compareFn a b);
  consistent_trans a b c :
    compareFn a b = Lt → compareFn b c = Lt → compareFn a c = Lt;
  consistent_tied a b c : compareFn a b = Eq → compareFn a c = compareFn b c
}.

(** The same, in the words of the language standard for a consistent
    comparison function, which it requires [localeCompare] to be on all
    strings: equality of sign zero is reflexive, symmetric and transitive,
    and the negative and the positive sign are transitive. *)
Record ConsistentComparator {A} (compareFn : A → A → comparison) : Prop := {
  comparator_refl a : compareFn a a = Eq;
  comparator_sym a b : compareFn a b = Eq → compareFn b a = Eq;
  comparator_eq_trans a b c :
    compareFn a b = Eq → compareFn b c = Eq → compareFn a c = Eq;
  comparator_lt_trans a b c :
    compareFn a b = Lt → compareFn b c = Lt → compareFn a c = Lt;
  comparator_gt_trans a b c :
    compareFn a b = Gt → compareFn b c = Gt → compareFn a c = Gt
}.

(** The callback does not put [b] before [a]. *)
Definition notAfter {A} (compareFn : A → A → comparison) (a b : A) : Prop :=
  compareFn a b ≠ Gt.

(** The elements of [l] that compare as equal to [a], in list order. *)
Definition tiedWith {A} (compareFn : A → A → comparison) (a : A) (l : list A)
  : list A :=
  List.filter (λ z, bool_decide (compareFn a z = Eq)) l.

(** No two elements at different positions compare as equal. *)
Definition apart {A} (compareFn : A → A → comparison) (l : list A) : Prop :=
  StronglySorted (λ a b, compareFn a b ≠ Eq) l.

(** ** The pipeline over the host's strings *)

(** The filter and the sort call two built-ins of the host on the text of
    the records: [String.prototype.toLowerCase] and
    [String.prototype.localeCompare]. Here strings are sequences of UTF-16
    code units and the two built-ins are parameters, so that what is proved
    holds whatever they do on any text. *)
Module Host.

Abbreviation JsString := (list N).

(** [s.startsWith(t)] *)
Fixpoint startsWith (s t : JsString) : bool :=
  match t, s with
  | [], _ => true
  | _ :: _, [] => false
  | b :: t', a :: s' => bool_decide (a = b) && startsWith s' t'
  end.

(** [s.includes(t)] *)
Fixpoint includes (s t : JsString) : bool :=
  startsWith s t ||
  match s with
  | [] => false
  | _ :: s' => includes s' t
  end.

Definition truthy (s : JsString) : bool :=
  match s with [] => false | _ :: _ => true end.

Record Company := { company_name : JsString }.

Record User := {
  id : Z;
  name : JsString;
  email : JsString;
  phone : JsString;
  company : Company
}.

Section pipeline.
Variable toLowerCase : JsString → JsString.
Variable localeCompare : JsString → JsString → comparison.

Definition isNameMatch (search : JsString) (user : User) : bool :=
  includes (toLowerCase (name user)) (toLowerCase search).

Definition isCompanyMatch (companyFilter : JsString) (user : User) : bool :=
  if truthy companyFilter
  then bool_decide
         (toLowerCase (company_name (company user)) = toLowerCase companyFilter)
  else true.

Definition filteredUsers (users : list User) (search companyFilter : JsString)
  : list User :=
  List.filter
    (fun user => isNameMatch search user && isCompanyMatch companyFilter user)
    users.

Definition compareUsers (sortOrder : SortOrder) (a b : User) : comparison :=
  let nameA := toLowerCase (name a) in
  let nameB := toLowerCase (name b) in
  match sortOrder with
  | asc => localeCompare nameA nameB
  | desc => localeCompare nameB nameA
  end.

(** [filteredUsers.sort(...)], in place on the array it is given. *)
Definition sortedUsers (filteredUsers : list User) (sortOrder : SortOrder)
  : list User :=
  sort (compareUsers sortOrder) filteredUsers.

End pipeline.

Definition currentUsers (sortedUsers : list User) (currentPage : Z)
  : list User :=
  slice sortedUsers (indexOfFirstUser currentPage) (indexOfLastUser currentPage).

(** [Array.from(new Set(values))]: a [Set] keeps its elements in the order
    in which they were first added, and adding an element it already has
    changes nothing. *)
Definition arrayFromSet (values : list JsString) : list JsString :=
  foldl (λ seen value, if decide (value ∈ seen) then seen else seen ++ [value])
    [] values.

(** The company names offered by the [select], after its first option, whose
    value is the empty string. *)
Definition companyOptions (users : list User) : list JsString :=
  arrayFromSet ((λ user, company_name (company user)) <$> users).

(** *** Text in Basic Latin *)

(** On text made of the code units 0-127 [toLowerCase] replaces each of the
    letters A-Z by the letter 32 further and leaves the rest. *)
Definition asciiLower (c : N) : N :=
  if ((65 <=? c) && (c <=? 90))%N then (c + 32)%N else c.

Definition isAscii (s : JsString) : Prop := Forall (λ c, (c < 128)%N) s.

Definition AsciiLaw (toLowerCase : JsString → JsString) : Prop :=
  ∀ s, isAscii s → toLowerCase s = asciiLower <$> s.

(** Case-insensitive matching as the prose has it, said without any
    lowering: two code units are the same letter when they are equal or one
    is a capital A-Z and the other its small letter. *)
Definition sameLetter (a b : N) : Prop :=
  a = b
  ∨ ((65 ≤ a)%N ∧ (a ≤ 90)%N ∧ b = (a + 32)%N)
  ∨ ((65 ≤ b)%N ∧ (b ≤ 90)%N ∧ a = (b + 32)%N).

Definition ci_equal (s t : JsString) : Prop := Forall2 sameLetter s t.

Definition ci_substring (s t : JsString) : Prop :=
  ∃ before middle after, s = before ++ middle ++ after ∧ ci_equal middle t.

(** The text occurs as it is written. *)
Definition occursIn (t s : JsString) : Prop :=
  ∃ before after, s = before ++ t ++ after.

End Host.

(** ** An example host *)

(** Concrete built-ins for worked examples. [sampleLower] follows the
    language standard (Unicode default case conversion with the Final_Sigma
    condition) for text in Basic Latin, Latin-1 Supplement and the Greek
    letters U+0391-U+03A9 and U+03B1-U+03C9; other code units it leaves as
    they are, which the built-in does not, so it stands for the built-in on
    text of these blocks only. *)
Definition lowerUnit (c : N) : N :=
  if ((65 <=? c) && (c <=? 90))%N then (c + 32)%N
  else if ((192 <=? c) && (c <=? 222) && negb (c =? 215))%N then (c + 32)%N
  else if ((913 <=? c) && (c <=? 939) && negb (c =? 930))%N then (c + 32)%N
  else c.

Definition isCased (c : N) : bool :=
  ((65 <=? c) && (c <=? 90) || (97 <=? c) && (c <=? 122)
   || (c =? 170) || (c =? 181) || (c =? 186)
   || (192 <=? c) && (c <=? 255) && negb (c =? 215) && negb (c =? 247)
   || (913 <=? c) && (c <=? 969) && negb (c =? 930)
      && negb ((940 <=? c) && (c <=? 944)))%N.

Definition isCaseIgnorable (c : N) : bool :=
  ((c =? 39) || (c =? 46) || (c =? 58) || (c =? 94) || (c =? 96)
   || (c =? 168) || (c =? 173) || (c =? 175) || (c =? 180) || (c =? 183)
   || (c =? 184))%N.

(** A cased letter follows, after case-ignorable characters at most. *)
Fixpoint casedAhead (s : Host.JsString) : bool :=
  match s with
  | [] => false
  | c :: r => if isCaseIgnorable c then casedAhead r else isCased c
  end.

(** [casedBefore]: a cased letter precedes, with case-ignorable characters
    in between at most. A capital sigma (931) in that position with no cased
    letter ahead becomes the final small sigma (962). *)
Fixpoint lowerFrom (casedBefore : bool) (s : Host.JsString) : Host.JsString :=
  match s with
  | [] => []
  | c :: r =>
      (if (c =? 931)%N && casedBefore && negb (casedAhead r)
       then 962%N else lowerUnit c)
      :: lowerFrom (if isCaseIgnorable c then casedBefore else isCased c) r
  end.

Definition sampleLower (s : Host.JsString) : Host.JsString := lowerFrom false s.

(** Comparison by code units, as an example of a consistent callback. *)
Fixpoint unitCompare (s t : Host.JsString) : comparison :=
  match s, t with
  | [], [] => Eq
  | [], _ :: _ => Lt
  | _ :: _, [] => Gt
  | a :: s', b :: t' =>
      match (a ?= b)%N with
      | Eq => unitCompare s' t'
      | c => c
      end
  end.

(** The code units of a string literal. *)
Fixpoint units (s : string) : Host.JsString :=
  match s with
  | EmptyString => []
  | String c r => N_of_ascii c :: units r
  end.

Definition hostUser (u : User) : Host.User :=
  {| Host.id := id u; Host.name := units (name u);
     Host.email := units (email u); Host.phone := units (phone u);
     Host.company := {| Host.company_name := units (company_name (company u)) |} |}.

(** Text of the code units 0-127, and records written in it. *)
Definition basicLatin (s : string) : Prop := Host.isAscii (units s).

Definition basicLatinUser (u : User) : Prop :=
  basicLatin (name u) ∧ basicLatin (company_name (company u)).

(** A comparison of the host's strings, read on 8-bit strings. *)
Definition onUnits
    (localeCompare : Host.JsString → Host.JsString → comparison)
    (s t : string) : comparison :=
  localeCompare (units s) (units t).

(** A record named with the Greek capitals omicron, delta, omicron, sigma. *)
Definition odos : Host.User :=
  {| Host.id := 1; Host.name := [927; 916; 927; 931]%N;
     Host.email := []; Host.phone := [];
     Host.company := {| Host.company_name := units "Acme" |} |}.

(** Two records whose names differ by case only. *)
Definition bobTwice : list Host.User :=
  [ hostUser (mkUser 1 "Bob" "Acme"); hostUser (mkUser 2 "bob" "Acme") ].

(** ** String lemmas *)

Section string_facts.

Lemma append_cons c s t : String c s +:+ t = String c (s +:+ t).
Proof. reflexivity. Qed.


Lemma includes_empty s : includes s EmptyString = true.
Proof. by destruct s. Qed.

End string_facts.

(** ** Filtering *)

Section filter_facts.

Lemma filteredUsers_sublist users search companyFilter :
  filteredUsers users search companyFilter `sublist_of` users.
Proof.
  unfold filteredUsers. induction users as [|x l IH]; simpl; [done|].
  destruct (_ && _); by constructor.
Qed.

End filter_facts.

(** C6, as the specification has it: the search text "o" over John, Bob and
    Rose keeps John and Rose only. It does not hold: "bob" contains "o", and
    Bob is kept. *)
Lemma scenario_o_keeps_bob :
  ¬ (∀ n : string,
       n ∈ name <$> filteredUsers [john; bob; rose] "o" "" ↔
       n ∈ ["John"; "Rose"]).
Proof.
  intros H. specialize (H "Bob").
  change (name <$> filteredUsers [john; bob; rose] "o" "")
    with ["John"; "Bob"; "Rose"] in H.
  rewrite !elem_of_cons, elem_of_nil in H.
  destruct H as [H _]. by destruct H as [? | [? | []]]; auto.
Qed.

(** C6, amended: the search text "o" with no category filter keeps all three
    of John, Bob and Rose, in collection order. *)
Theorem scenario_o_keeps_all (u1 u2 u3 : User) :
  name u1 = "John" → name u2 = "Bob" → name u3 = "Rose" →
  filteredUsers [u1; u2; u3] "o" "" = [u1; u2; u3].
Proof.
  intros H1 H2 H3. unfold filteredUsers, isNameMatch, isCompanyMatch. simpl.
  by rewrite H1, H2, H3.
Qed.

Lemma scenario_o_keeps_all_witness :
  filteredUsers [john; bob; rose] "o" "" = [john; bob; rose].
Proof. apply (scenario_o_keeps_all john bob rose); reflexivity. Defined.

(** ** Pagination arithmetic *)

Section pagination_facts.

Lemma ceilDiv_bounds n d :
  0 < d → d * (ceilDiv n d - 1) < n ≤ d * ceilDiv n d.
Proof.
  intros Hd. unfold ceilDiv.
  pose proof (Z.mul_div_le (- n) d Hd).
  pose proof (Z.mul_succ_div_gt (- n) d Hd). lia.
Qed.

Lemma ceilDiv_nonneg n d : 0 < d → 0 ≤ n → 0 ≤ ceilDiv n d.
Proof. intros Hd Hn. pose proof (ceilDiv_bounds n d Hd). nia. Qed.

Lemma ceilDiv_pos n d : 0 < d → 0 < n → 1 ≤ ceilDiv n d.
Proof. intros Hd Hn. pose proof (ceilDiv_bounds n d Hd). nia. Qed.

Lemma ceilDiv_0 d : ceilDiv 0 d = 0.
Proof. unfold ceilDiv. by rewrite Z.opp_0, Zdiv_0_l. Qed.

Context {A : Type}.
Implicit Types l : list A.

Lemma slice_length l a b :
  a ≤ b → b - a ≤ 5 → (length (slice l a b) ≤ 5)%nat.
Proof.
  intros Hle Hab. unfold slice, relativeIndex. cbv zeta. rewrite length_take.
  destruct (Z.ltb_spec a 0), (Z.ltb_spec b 0); lia.
Qed.

(** From index [a ≥ 0] to index [a + w]: skip [a], keep [w]. *)
Lemma slice_take_drop l a w :
  0 ≤ a → 0 < w →
  slice l a (a + w) = take (Z.to_nat w) (drop (Z.to_nat a) l).
Proof.
  intros Ha Hw. unfold slice, relativeIndex. cbv zeta.
  destruct (Z.ltb_spec a 0); [lia|]. destruct (Z.ltb_spec (a + w) 0); [lia|].
  apply list_eq. intros i. rewrite !lookup_take, !lookup_drop.
  repeat case_decide; try done; try lia.
  - f_equal. lia.
  - symmetry. apply lookup_ge_None. lia.
Qed.

Lemma chunks_concat l (w k : nat) :
  concat ((λ j : nat, take w (drop (j * w) l)) <$> seq 0 k) = take (k * w) l.
Proof.
  induction k as [|k IH]; [done|].
  rewrite seq_S, fmap_app, concat_app, IH. simpl.
  rewrite app_nil_r, take_take_drop. f_equal. lia.
Qed.

End pagination_facts.

Lemma currentUsers_take_drop (l : list User) (p : Z) :
  1 ≤ p →
  currentUsers l p = take 5 (drop (Z.to_nat ((p - 1) * usersPerPage)) l).
Proof.
  intros Hp. unfold currentUsers, indexOfFirstUser, indexOfLastUser.
  replace (p * usersPerPage)
    with ((p - 1) * usersPerPage + usersPerPage) at 2 by lia.
  replace (p * usersPerPage - usersPerPage) with ((p - 1) * usersPerPage) by lia.
  rewrite slice_take_drop; [done | unfold usersPerPage; lia..].
Qed.

Lemma currentUsers_lookup (l : list User) (p : Z) (i : nat) :
  1 ≤ p →
  currentUsers l p !! i =
    if decide (i < 5)%nat
    then l !! (Z.to_nat ((p - 1) * usersPerPage) + i)%nat else None.
Proof.
  intros Hp. rewrite currentUsers_take_drop by done.
  by rewrite lookup_take, lookup_drop.
Qed.

Lemma currentUsers_length (l : list User) (p : Z) :
  (length (currentUsers l p) ≤ 5)%nat.
Proof.
  apply slice_length; unfold indexOfFirstUser, indexOfLastUser, usersPerPage;
    lia.
Qed.

Lemma pages_concat (l : list User) : concat (pages l) = l.
Proof.
  unfold pages, seqZ. rewrite <- list_fmap_compose.
  set (k := Z.to_nat (ceilDiv (Z.of_nat (length l)) usersPerPage)).
  rewrite (list_fmap_ext _ (λ j : nat, take 5 (drop (j * 5) l)) (seq 0 k)).
  - rewrite chunks_concat. apply take_ge.
    pose proof (ceilDiv_bounds (Z.of_nat (length l)) usersPerPage).
    unfold usersPerPage in *. lia.
  - intros _ j _. simpl. rewrite currentUsers_take_drop by lia.
    do 2 f_equal. unfold usersPerPage. lia.
Qed.

(** C10. The slices for the page numbers 1 .. ceil(n / pageSize) of a sequence
    of length n, put one after the other in page order, give back the whole
    sequence; every slice has at most pageSize elements; and when the records
    of the sequence are distinct, two different pages share no record. *)
Theorem pagination_partitions (l : list User) :
  concat (pages l) = l
  ∧ (∀ p, (length (currentUsers l p) ≤ Z.to_nat usersPerPage)%nat)
  ∧ (NoDup l →
     ∀ p q x, 1 ≤ p → 1 ≤ q → p ≠ q →
       x ∈ currentUsers l p → x ∉ currentUsers l q).
Proof.
  split; [apply pages_concat|]. split; [apply currentUsers_length|].
  intros Hnd p q x Hp Hq Hpq [i Hi]%list_elem_of_lookup [j Hj]%list_elem_of_lookup.
  rewrite currentUsers_lookup in Hi, Hj by done.
  repeat case_decide; try done.
  pose proof (NoDup_lookup _ _ _ _ Hnd Hi Hj). unfold usersPerPage in *. lia.
Qed.

(** ** The page state across events *)

Section page_state.

Lemma users_nonempty_pages (l : list User) :
  l ≠ [] → 1 ≤ ceilDiv (Z.of_nat (length l)) usersPerPage.
Proof.
  intros Hl. apply ceilDiv_pos; [done|]. destruct l; [done | simpl; lia].
Qed.

Lemma initial_invariant stored searchParam companyParam :
  PageInvariant (seedFromUrl searchParam companyParam (initialState stored)).
Proof.
  assert (Hs : ∀ s, users s = [] → loading s = true → currentPage s = 1 →
                    totalPages s = 0 → PageInvariant s).
  { intros s Hu Hl Hc Ht. by constructor; rewrite ?Hu, ?Hc, ?Ht. }
  unfold seedFromUrl.
  destruct searchParam as [[|]|], companyParam as [[|]|]; by apply Hs.
Qed.

Lemma fetchUsers_invariant o s :
  PageInvariant s → loading s = true → PageInvariant (fetchUsers o s).
Proof.
  intros [Ht Hl Hn Hr] Hload. destruct (Hl Hload) as [Hu Hc].
  destruct o as [m | | m | data]; constructor; simpl; try done.
  - intros Hd. rewrite Hc. pose proof (users_nonempty_pages data Hd). lia.
  - rewrite Hc. lia.
Qed.

Lemma handleScroll_invariant m s :
  PageInvariant s → PageInvariant (handleScroll m s).
Proof.
  intros [Ht Hl Hn Hr]. unfold handleScroll.
  destruct (nearBottom m); [|by constructor]. simpl.
  destruct (Z.ltb_spec (currentPage s) (totalPages s)); [|by constructor].
  constructor; simpl; try done.
  - intros Hload. destruct (Hl Hload) as [Hu Hc].
    rewrite Hu in Ht. simpl in Ht. rewrite ceilDiv_0 in Ht. lia.
  - intros Hu. specialize (Hn Hu). lia.
  - lia.
Qed.

Lemma changePage_invariant d s :
  PageInvariant s → loading s = false → PageInvariant (changePage d s).
Proof.
  intros [Ht Hl Hn Hr] Hload. constructor; simpl; try done.
  - rewrite Hload. done.
  - intros Hu. specialize (Hn Hu). lia.
  - assert (0 ≤ totalPages s); [|lia].
    rewrite Ht. apply ceilDiv_nonneg; [done | lia].
Qed.

Lemma controlsRendered_loaded s : controlsRendered s = true → loading s = false.
Proof. unfold controlsRendered. by destruct (loading s). Qed.

Lemma handleEvent_invariant e s :
  PageInvariant s → PageInvariant (handleEvent e s).
Proof.
  intros Hs. destruct e; simpl.
  - destruct (loading s) eqn:Hload; [by apply fetchUsers_invariant | done].
  - by apply handleScroll_invariant.
  - destruct (controlsRendered s) eqn:Hc; [|done].
    destruct (negb _); [|done].
    apply changePage_invariant; [done | by apply controlsRendered_loaded].
  - destruct (controlsRendered s) eqn:Hc; [|done].
    destruct (negb _); [|done].
    apply changePage_invariant; [done | by apply controlsRendered_loaded].
  - destruct (controlsRendered s); [|done]. by destruct Hs.
  - destruct (controlsRendered s); [|done]. by destruct Hs.
  - destruct (controlsRendered s); [|done]. by destruct Hs.
  - destruct (controlsRendered s); [|done]. by destruct Hs.
  - by destruct Hs.
Qed.

Lemma run_invariant events s : PageInvariant s → PageInvariant (run events s).
Proof.
  revert s. induction events as [|e events IH]; intros s Hs; [done|].
  apply IH. by apply handleEvent_invariant.
Qed.

Lemma run_app events1 events2 s :
  run (events1 ++ events2) s = run events2 (run events1 s).
Proof. apply foldl_app. Qed.

End page_state.

(** C1, as the specification has it: the page index stays within
    [1, max(1, pageCount)] for the page count of the filtered set. It does not
    hold: on page 3 of 12 records, a search text that leaves one record makes
    the filtered set one page long, while the page index stays 3 and the page
    count of the state stays 3. Nor does the page index stay within the page
    count of the whole collection: three scroll events at the bottom, handled
    by the listener that was installed on page 1 of 3, take it to page 4. *)
Lemma page_index_outside_filtered_pages :
  specPageCount searchOnLastPage = 1
  ∧ totalPages searchOnLastPage = 3
  ∧ currentPage searchOnLastPage = 3
  ∧ ¬ (1 ≤ currentPage searchOnLastPage
         ≤ Z.max 1 (specPageCount searchOnLastPage))
  ∧ totalPages (appState staleScrolls) = 3
  ∧ currentPage (appState staleScrolls) = 4.
Proof.
  split; [reflexivity|]. split; [reflexivity|]. split; [reflexivity|].
  split; [|split; reflexivity]. vm_compute. intros [_ H]. by apply H.
Qed.

(** C3, as the specification has it: the page count is
    max(1, ceil(length / pageSize)) for the length of the filtered sequence.
    It does not hold: an empty collection gives the page count 0, not 1, and
    with 12 records and a search text that leaves one record the page count
    is 3, not 1. *)
Lemma page_count_is_not_of_filtered :
  totalPages (run [FetchSettled (JsonParsed [])] (initialState None)) = 0
  ∧ Z.max 1 (specPageCount
               (run [FetchSettled (JsonParsed [])] (initialState None))) = 1
  ∧ totalPages searchOnLastPage = 3
  ∧ Z.max 1 (specPageCount searchOnLastPage) = 1.
Proof. repeat split; reflexivity. Qed.

(** C3, amended: after any sequence of events the page count of the state is
    ceil(n / pageSize) for the length n of the whole loaded collection (0 for
    an empty one), and for every sequence and every page index from 1 on, the
    displayed page is exactly the part of the sequence at the positions from
    (pageIndex-1)*pageSize up to, not including, pageIndex*pageSize. *)
Theorem pagination_arithmetic
    (stored searchParam companyParam : option string) (events : list Event)
    (sorted : list User) (pageIndex : Z) (i : nat) :
  let s := run events (seedFromUrl searchParam companyParam (initialState stored)) in
  totalPages s = ceilDiv (Z.of_nat (length (users s))) usersPerPage
  ∧ (1 ≤ pageIndex →
     currentUsers sorted pageIndex !! i =
       if decide (Z.of_nat i < usersPerPage)
       then sorted !! (Z.to_nat ((pageIndex - 1) * usersPerPage) + i)%nat
       else None).
Proof.
  intros s. split.
  - apply run_invariant, initial_invariant.
  - intros Hp. rewrite currentUsers_lookup by done.
    unfold usersPerPage. repeat case_decide; try done; lia.
Qed.

(** ** Prev and Next *)

(** C9. For every prior page p and every direction d (the buttons pass -1 and
    +1), the page becomes min(max(p + d, 1), totalPages) and nothing else
    changes; with totalPages ≥ 1 the result is in [1, totalPages]; with
    totalPages = 0 the result is 0, and that state is reached by loading an
    empty array and clicking Next. *)
Theorem changePage_clamps (s : AppState) (d : Z) :
  changePage d s
    = setCurrentPage (Z.min (Z.max (currentPage s + d) 1) (totalPages s)) s
  ∧ (1 ≤ totalPages s → 1 ≤ currentPage (changePage d s) ≤ totalPages s)
  ∧ (totalPages s = 0 → currentPage (changePage d s) = 0)
  ∧ totalPages nextOnEmpty = 0 ∧ currentPage nextOnEmpty = 0.
Proof.
  split; [done|]. unfold changePage. simpl. repeat split; try lia.
Qed.

(** ** Scrolling *)

Lemma nearBottom_spec m :
  nearBottom m = true ↔ scrollHeight m - (innerHeight m + scrollTop m) ≤ 5.
Proof. unfold nearBottom. rewrite Z.geb_le. lia. Qed.

(** ** Load failure *)

Section load_failure.

Lemma fetchUsers_failed o reason s :
  failureReason o = Some reason → users s = [] → Failed reason (fetchUsers o s).
Proof. intros Hr Hu. destruct o; simplify_eq/=; done. Qed.

Lemma handleEvent_failed e reason s :
  Failed reason s → Failed reason (handleEvent e s).
Proof.
  intros (Hl & Hu & He). destruct e; simpl; rewrite ?Hl; try done.
  - unfold handleScroll. by destruct (_ && _).
  - by destruct (_ && _).
  - by destruct (_ && _).
  - by destruct (controlsRendered s).
  - by destruct (controlsRendered s).
  - by destruct (controlsRendered s).
  - by destruct (controlsRendered s).
Qed.

Lemma run_failed events reason s :
  Failed reason s → Failed reason (run events s).
Proof.
  revert s. induction events as [|e events IH]; intros s Hs; [done|].
  apply IH. by apply handleEvent_failed.
Qed.

Lemma displayedUsers_empty localeCompare s :
  users s = [] → displayedUsers localeCompare s = [].
Proof.
  intros Hu. unfold displayedUsers. destruct (controlsRendered s); [|done].
  rewrite Hu. simpl. unfold currentUsers, slice. simpl.
  by rewrite drop_nil, take_nil.
Qed.

End load_failure.

(** C8. When the startup fetch fails (the transport fails, the response is
    not ok, or the body does not parse), the state has the reason in [error],
    [loading] off and an empty record list, and it keeps them through every
    later event, a late settling of a fetch included: no record is ever
    displayed. *)
Theorem load_failure_is_terminal
    (stored searchParam companyParam : option string)
    (before after : list Event) (o : FetchOutcome) (reason : string)
    (localeCompare : string → string → comparison) :
  failureReason o = Some reason →
  let pending :=
    run before (seedFromUrl searchParam companyParam (initialState stored)) in
  loading pending = true →
  let s := run after (handleEvent (FetchSettled o) pending) in
  error s = Some reason ∧ loading s = false ∧ users s = []
  ∧ displayedUsers localeCompare s = [].
Proof.
  intros Hr pending Hload s.
  assert (Hf : Failed reason s).
  { apply run_failed. simpl. rewrite Hload. apply fetchUsers_failed; [done|].
    by apply (inv_loading pending);
      [apply run_invariant, initial_invariant|]. }
  destruct Hf as (Hl & Hu & He). repeat split; try done.
  by apply displayedUsers_empty.
Qed.

Lemma load_failure_is_terminal_witness :
  let s := run [ClickNext; SearchInput "a"; FetchSettled (JsonParsed twelveUsers)]
             (handleEvent (FetchSettled ResponseNotOk)
                (run [ScrollEvent atBottom]
                   (seedFromUrl (Some "ali") None (initialState None)))) in
  error s = Some "Failed to fetch data." ∧ loading s = false ∧ users s = []
  ∧ displayedUsers codeCompare s = [].
Proof.
  apply (load_failure_is_terminal None (Some "ali") None [ScrollEvent atBottom]
           [ClickNext; SearchInput "a"; FetchSettled (JsonParsed twelveUsers)]
           ResponseNotOk "Failed to fetch data." codeCompare);
    reflexivity.
Defined.

(** ** Sorting *)

Section sort_permutation.
Context {A : Type} (compareFn : A → A → comparison).

Lemma sort_insert_Permutation x l : sort_insert compareFn x l ≡ₚ x :: l.
Proof.
  induction l as [|y l IH]; simpl; [done|].
  destruct (compareFn x y); try done.
  by rewrite IH, Permutation_swap.
Qed.

Lemma sort_Permutation l : sort compareFn l ≡ₚ l.
Proof.
  induction l as [|x l IH]; simpl; [done|].
  by rewrite sort_insert_Permutation, IH.
Qed.

End sort_permutation.

(** ** The search box *)

Section debounce_facts.
Import Debounce.

Lemma setSearch_timerHoldsSearch now value s :
  timerHoldsSearch s → timerHoldsSearch (Debounce.setSearch now value s).
Proof.
  intros Hs due v. unfold Debounce.setSearch. case_bool_decide as Hv; simpl.
  - rewrite Hv. apply Hs.
  - by intros [= _ <-].
Qed.

(** A timeout that runs calls the setter with the value the state already
    has, so it changes nothing and sets no new timeout. *)
Lemma fire_search s :
  timerHoldsSearch s →
  search (fire s) = search s ∧ (is_Some (timer s) → timer (fire s) = None).
Proof.
  intros Hs. unfold fire. destruct (timer s) as [[due value]|] eqn:Ht.
  - rewrite (Hs due value Ht). unfold debounceSearch, Debounce.setSearch. simpl.
    by rewrite bool_decide_eq_true_2.
  - split; [done | by intros []].
Qed.

Lemma fire_timerHoldsSearch s : timerHoldsSearch s → timerHoldsSearch (fire s).
Proof.
  intros Hs. unfold fire. destruct (timer s) as [[due value]|] eqn:Ht; [|done].
  apply setSearch_timerHoldsSearch. by intros ???.
Qed.

Lemma advance_timerHoldsSearch now s :
  timerHoldsSearch s → timerHoldsSearch (advance now s).
Proof.
  intros Hs. unfold advance. destruct (timer s) as [[due value]|] eqn:Ht; [|done].
  destruct (due <=? now); [by apply fire_timerHoldsSearch | done].
Qed.

(** Whatever is typed, the pending timeout holds the value of the state:
    when it runs it changes nothing. *)
Lemma type_timerHoldsSearch inputs s :
  timerHoldsSearch s → timerHoldsSearch (type inputs s).
Proof.
  revert s. induction inputs as [|[now value] inputs IH]; intros s Hs; [done|].
  apply IH. by apply setSearch_timerHoldsSearch, advance_timerHoldsSearch.
Qed.

Lemma mount_timerHoldsSearch : timerHoldsSearch mount.
Proof. by intros due value [= _ <-]. Qed.

Lemma debounceSearch_search now value s :
  search (debounceSearch now value s) = value
  ∧ last (calls (debounceSearch now value s)) = Some (now, value).
Proof.
  unfold debounceSearch, Debounce.setSearch.
  case_bool_decide; simpl; by rewrite last_snoc.
Qed.

End debounce_facts.

(** C2, on the code: the search box calls the setter itself, so every input
    event puts its value into the state at once, with no quiet period, and
    the 300ms timeout only sets the value the state already has. With "a",
    "al", "ali", "alice" typed at 0, 50, 100 and 300 ms the setter runs five
    times: once per keystroke at the keystroke's own time, intermediate
    values included, and once more at 600 ms. *)
Theorem search_input_commits_at_once (now : Z) (value : string)
    (d : Debounce.State) (s : AppState) :
  Debounce.search (Debounce.debounceSearch now value d) = value
  ∧ (if controlsRendered s
     then search (handleEvent (SearchInput value) s) = value
     else search (handleEvent (SearchInput value) s) = search s)
  ∧ handleEvent SearchTimeout s = s
  ∧ Debounce.calls
      (Debounce.settle (Debounce.type Debounce.keystrokes Debounce.mount))
    = [(0, "a"); (50, "al"); (100, "ali"); (300, "alice"); (600, "alice")]
  ∧ Debounce.search (Debounce.type [(0, "a")] Debounce.mount) = "a".
Proof.
  split; [apply debounceSearch_search|].
  split; [simpl; by destruct (controlsRendered s)|].
  split; [by destruct s|]. split; reflexivity.
Qed.

(** ** More on filtering *)

Section more_filter_facts.


Lemma filter_sublist_impl {A} (f g : A → bool) (l : list A) :
  (∀ x, f x = true → g x = true) → List.filter f l `sublist_of` List.filter g l.
Proof.
  intros Hfg. induction l as [|x l IH]; simpl; [done|].
  destruct (f x) eqn:Hf.
  - rewrite (Hfg x Hf). by constructor.
  - destruct (g x); [by constructor | done].
Qed.

Lemma filter_filter_andb {A} (f g : A → bool) (l : list A) :
  List.filter f (List.filter g l) = List.filter (λ x, g x && f x) l.
Proof.
  induction l as [|x l IH]; simpl; [done|].
  destruct (g x); simpl; [|done]. destruct (f x); by rewrite IH.
Qed.

Lemma isNameMatch_empty u : isNameMatch "" u = true.
Proof. apply includes_empty. Qed.

End more_filter_facts.

(** X1. With an empty search text and no company selected the filter keeps
    the whole collection, in collection order. *)
Theorem filter_nothing_keeps_all (users : list User) :
  filteredUsers users "" "" = users.
Proof.
  unfold filteredUsers. induction users as [|u l IH]; simpl; [done|].
  by rewrite isNameMatch_empty, IH.
Qed.



(** X4. The two conditions of the filter act independently: filtering by the
    search text alone and then by the company alone, in either order, keeps
    the same records as filtering by both at once, and filtering a second
    time by the same query changes nothing. *)
Theorem filter_conditions_compose (users : list User)
    (search companyFilter : string) :
  filteredUsers (filteredUsers users search "") "" companyFilter
    = filteredUsers users search companyFilter
  ∧ filteredUsers (filteredUsers users "" companyFilter) search ""
    = filteredUsers users search companyFilter
  ∧ filteredUsers (filteredUsers users search companyFilter) search companyFilter
    = filteredUsers users search companyFilter.
Proof.
  unfold filteredUsers. rewrite !filter_filter_andb.
  assert (Hc : ∀ u, isCompanyMatch "" u = true) by done.
  repeat split; apply filter_ext; intros u;
    rewrite ?isNameMatch_empty, ?Hc;
    destruct (isNameMatch search u), (isCompanyMatch companyFilter u); done.
Qed.

(** ** More on pages *)

Section more_pages.

Lemma ceilDiv_mono n m d : 0 < d → n ≤ m → ceilDiv n d ≤ ceilDiv m d.
Proof.
  intros Hd Hnm. unfold ceilDiv.
  pose proof (Z.div_le_mono (- m) (- n) d Hd). lia.
Qed.

Lemma currentUsers_sublist (l : list User) (p : Z) :
  currentUsers l p `sublist_of` l.
Proof.
  unfold currentUsers, slice. cbv zeta.
  etrans; [apply sublist_take | apply sublist_drop].
Qed.

Lemma currentUsers_page_length (l : list User) (p : Z) :
  1 ≤ p →
  Z.of_nat (length (currentUsers l p))
  = Z.max 0 (Z.min usersPerPage (Z.of_nat (length l) - (p - 1) * usersPerPage)).
Proof.
  intros Hp. rewrite currentUsers_take_drop by done.
  rewrite length_take, length_drop. unfold usersPerPage. lia.
Qed.

Lemma elem_of_pages (l : list User) (u : User) :
  u ∈ l →
  ∃ p, 1 ≤ p ≤ ceilDiv (Z.of_nat (length l)) usersPerPage
       ∧ u ∈ currentUsers l p.
Proof.
  intros Hu. rewrite <- (pages_concat l) in Hu at 1.
  apply list_elem_of_In, in_concat in Hu as (page & Hpage & Hu).
  apply list_elem_of_In in Hpage, Hu. unfold pages in Hpage.
  apply list_elem_of_fmap in Hpage as (p & -> & Hp%elem_of_seqZ).
  exists p. split; [lia | done].
Qed.

End more_pages.

(** X8. Pages are filled from the front: of the pages 1 .. ceil(n / 5) of a
    sequence of n records every page before the last holds exactly 5 records
    and the last one holds the remaining n - 5 * (pages - 1), at least one;
    page 0 and every page after the last are empty. *)
Theorem pages_fill_from_the_front (l : list User) (p : Z) :
  let n := Z.of_nat (length l) in
  let pageCount := ceilDiv n usersPerPage in
  (1 ≤ p < pageCount → Z.of_nat (length (currentUsers l p)) = usersPerPage)
  ∧ (1 ≤ pageCount →
     Z.of_nat (length (currentUsers l pageCount))
       = n - usersPerPage * (pageCount - 1)
     ∧ 1 ≤ n - usersPerPage * (pageCount - 1) ≤ usersPerPage)
  ∧ (pageCount < p → currentUsers l p = [])
  ∧ currentUsers l 0 = [].
Proof.
  intros n pageCount.
  pose proof (ceilDiv_bounds n usersPerPage) as Hb. fold pageCount in Hb.
  unfold usersPerPage in *. repeat split.
  - intros Hp. rewrite currentUsers_page_length by lia.
    unfold usersPerPage. fold n. lia.
  - rewrite currentUsers_page_length by lia. unfold usersPerPage. fold n. lia.
  - lia.
  - lia.
  - intros Hp. apply length_zero_iff_nil.
    assert (0 ≤ pageCount) by (apply ceilDiv_nonneg; lia).
    pose proof (currentUsers_page_length l p) as Hl.
    unfold usersPerPage in Hl. fold n in Hl. lia.
  - unfold currentUsers, slice, indexOfFirstUser, indexOfLastUser, usersPerPage,
      relativeIndex. simpl. fold n. rewrite Z.min_l by lia.
    apply length_zero_iff_nil. rewrite length_take. lia.
Qed.

(** X10. After any sequence of events, every record that passes the filter
    is on one of the pages 1 .. totalPages of the sorted result, so Next and
    Prev can bring it on screen: the page count of the whole collection is
    never too small for the filtered one. *)
Theorem every_match_is_on_some_page
    (localeCompare : string → string → comparison)
    (stored searchParam companyParam : option string) (events : list Event)
    (u : User) :
  let s := run events (seedFromUrl searchParam companyParam (initialState stored)) in
  let filtered := filteredUsers (users s) (search s) (companyFilter s) in
  u ∈ filtered →
  ∃ p, 1 ≤ p ≤ totalPages s
       ∧ u ∈ currentUsers (sortedUsers localeCompare filtered (sortOrder s)) p.
Proof.
  intros s filtered Hu.
  set (sorted := sortedUsers localeCompare filtered (sortOrder s)).
  assert (Hperm : sorted ≡ₚ filtered) by apply sort_Permutation.
  rewrite <- Hperm in Hu. apply elem_of_pages in Hu as (p & Hp & Hu).
  exists p. split; [|done].
  rewrite (inv_totalPages s) by apply run_invariant, initial_invariant.
  assert (ceilDiv (Z.of_nat (length sorted)) usersPerPage
          ≤ ceilDiv (Z.of_nat (length (users s))) usersPerPage); [|lia].
  apply ceilDiv_mono; [done|]. rewrite Hperm.
  pose proof (sublist_length _ _
                (filteredUsers_sublist (users s) (search s) (companyFilter s))).
  fold filtered in H. lia.
Qed.

Lemma every_match_is_on_some_page_witness :
  ∃ p, 1 ≤ p ≤ totalPages searchOnLastPage
       ∧ mkUser 5 "Eve" "Initech"
           ∈ currentUsers
               (sortedUsers codeCompare
                  (filteredUsers (users searchOnLastPage)
                     (search searchOnLastPage) (companyFilter searchOnLastPage))
                  (sortOrder searchOnLastPage)) p.
Proof.
  apply (every_match_is_on_some_page codeCompare None None None
           [ FetchSettled (JsonParsed twelveUsers); ScrollEvent atBottom;
             ScrollEvent atBottom; SearchInput "eve" ]
           (mkUser 5 "Eve" "Initech")).
  apply list_elem_of_In. simpl. auto.
Defined.

(** ** More on events *)

Section more_events.

Lemma setCurrentPage_same s : setCurrentPage (currentPage s) s = s.
Proof. by destruct s. Qed.

Lemma setCurrentPage_twice a b s :
  setCurrentPage a (setCurrentPage b s) = setCurrentPage a s.
Proof. done. Qed.

Lemma run_cons e events s : run (e :: events) s = run events (handleEvent e s).
Proof. done. Qed.

Lemma settled_fields e s :
  loading s = false →
  loading (handleEvent e s) = false
  ∧ users (handleEvent e s) = users s
  ∧ totalPages (handleEvent e s) = totalPages s
  ∧ error (handleEvent e s) = error s.
Proof.
  intros Hl. destruct e; simpl; rewrite ?Hl; try done.
  - unfold handleScroll. by destruct (_ && _).
  - by destruct (_ && _).
  - by destruct (_ && _).
  - by destruct (controlsRendered s).
  - by destruct (controlsRendered s).
  - by destruct (controlsRendered s).
  - by destruct (controlsRendered s).
Qed.

Lemma pending_user_event e s :
  Pending s → isUserEvent e = true → handleEvent e s = s.
Proof.
  intros (Hl & Hc & Ht) He. destruct e; try done; simpl.
  - unfold handleScroll. rewrite Hc, Ht. by rewrite andb_false_r.
  - unfold controlsRendered. by rewrite Hl.
  - unfold controlsRendered. by rewrite Hl.
  - unfold controlsRendered. by rewrite Hl.
  - unfold controlsRendered. by rewrite Hl.
  - unfold controlsRendered. by rewrite Hl.
  - unfold controlsRendered. by rewrite Hl.
  - by destruct s.
Qed.

Lemma initial_pending stored searchParam companyParam :
  Pending (seedFromUrl searchParam companyParam (initialState stored)).
Proof.
  unfold seedFromUrl.
  by destruct searchParam as [[|]|], companyParam as [[|]|].
Qed.

End more_events.



(** X13. Next and Prev undo each other inside the page range: with the
    controls on screen, Next then Prev gives back the state when the page
    index is from 1 up to, not including, the page count, and Prev then Next
    gives it back when the page index is above 1 and at most the page count.
    At page 1 Prev changes nothing and at the last page Next changes
    nothing. *)
Theorem next_and_prev_undo (s : AppState) :
  controlsRendered s = true →
  (1 ≤ currentPage s < totalPages s →
   handleEvent ClickPrev (handleEvent ClickNext s) = s)
  ∧ (1 < currentPage s ≤ totalPages s →
     handleEvent ClickNext (handleEvent ClickPrev s) = s)
  ∧ (currentPage s = 1 → handleEvent ClickPrev s = s)
  ∧ (currentPage s = totalPages s → handleEvent ClickNext s = s).
Proof.
  intros Hc.
  assert (Hr : ∀ p, controlsRendered (setCurrentPage p s) = true) by done.
  repeat split; intros Hp; simpl; rewrite Hc; unfold changePage; simpl.
  - destruct (Z.eqb_spec (currentPage s) (totalPages s)); [lia|]. simpl.
    rewrite Hr. simpl.
    destruct (Z.eqb_spec
                (Z.min (Z.max (currentPage s + 1) 1) (totalPages s)) 1); [lia|].
    simpl. rewrite setCurrentPage_twice.
    etrans; [|apply setCurrentPage_same]. f_equal. lia.
  - destruct (Z.eqb_spec (currentPage s) 1); [lia|]. simpl. rewrite Hr. simpl.
    destruct (Z.eqb_spec
                (Z.min (Z.max (currentPage s + -1) 1) (totalPages s))
                (totalPages s)); [lia|].
    simpl. rewrite setCurrentPage_twice.
    etrans; [|apply setCurrentPage_same]. f_equal. lia.
  - by rewrite Hp.
  - by rewrite Hp, Z.eqb_refl.
Qed.

Lemma next_and_prev_undo_witness :
  let s := setCurrentPage 2 (fetchUsers (JsonParsed twelveUsers) (initialState None)) in
  (1 ≤ currentPage s < totalPages s →
   handleEvent ClickPrev (handleEvent ClickNext s) = s)
  ∧ (1 < currentPage s ≤ totalPages s →
     handleEvent ClickNext (handleEvent ClickPrev s) = s)
  ∧ (currentPage s = 1 → handleEvent ClickPrev s = s)
  ∧ (currentPage s = totalPages s → handleEvent ClickNext s = s).
Proof.
  apply (next_and_prev_undo
           (setCurrentPage 2
              (fetchUsers (JsonParsed twelveUsers) (initialState None)))).
  reflexivity.
Defined.

Section status_facts.

Lemma run_settled events s :
  loading s = false →
  loading (run events s) = false
  ∧ users (run events s) = users s
  ∧ totalPages (run events s) = totalPages s
  ∧ error (run events s) = error s.
Proof.
  revert s. induction events as [|e events IH]; intros s Hl; [done|].
  rewrite run_cons.
  destruct (settled_fields e s Hl) as (Hl' & <- & <- & <-). by apply IH.
Qed.

Lemma run_pending events s :
  Pending s → forallb isUserEvent events = true → run events s = s.
Proof.
  intros Hs. induction events as [|e events IH]; [done|].
  cbn [forallb]. intros [He Hes]%andb_true_iff.
  rewrite run_cons, pending_user_event by done. by apply IH.
Qed.

Lemma initial_status stored searchParam companyParam :
  StatusInvariant (seedFromUrl searchParam companyParam (initialState stored)).
Proof.
  unfold seedFromUrl.
  destruct searchParam as [[|]|], companyParam as [[|]|]; by constructor.
Qed.

Lemma handleEvent_status e s :
  PageInvariant s → StatusInvariant s → StatusInvariant (handleEvent e s).
Proof.
  intros Hp Hs. destruct e; simpl.
  - destruct (loading s) eqn:Hload; [|done].
    destruct (inv_loading s Hp Hload) as [Hu _]. destruct Hs as [Hl He].
    destruct o; constructor; simpl; try done; intros Herr;
      first [exact Hu | by rewrite (Hl Hload) in Herr].
  - unfold handleScroll. destruct (_ && _); [|done]. by destruct Hs.
  - destruct (_ && _); [|done]. by destruct Hs.
  - destruct (_ && _); [|done]. by destruct Hs.
  - destruct (controlsRendered s); [|done]. by destruct Hs.
  - destruct (controlsRendered s); [|done]. by destruct Hs.
  - destruct (controlsRendered s); [|done]. by destruct Hs.
  - destruct (controlsRendered s); [|done]. by destruct Hs.
  - by destruct Hs.
Qed.

Lemma run_status events s :
  PageInvariant s → StatusInvariant s → StatusInvariant (run events s).
Proof.
  revert s. induction events as [|e events IH]; intros s Hp Hs; [done|].
  rewrite run_cons.
  apply IH; [by apply handleEvent_invariant | by apply handleEvent_status].
Qed.

End status_facts.

(** X14. Once the fetch has settled, whether it succeeded or failed, no
    event changes the record list, the page count, the error or the loading
    flag: the collection is loaded once and never refreshed. *)
Theorem collection_is_fixed_once_settled (events : list Event) (s : AppState) :
  loading s = false →
  loading (run events s) = false
  ∧ users (run events s) = users s
  ∧ totalPages (run events s) = totalPages s
  ∧ error (run events s) = error s.
Proof. apply run_settled. Qed.

Lemma collection_is_fixed_once_settled_witness :
  let s := fetchUsers (JsonParsed twelveUsers) (initialState None) in
  let events := [ClickNext; SearchInput "a"; FetchSettled (JsonParsed []);
                 ScrollEvent atBottom; ClickSort] in
  loading (run events s) = false
  ∧ users (run events s) = users s
  ∧ totalPages (run events s) = totalPages s
  ∧ error (run events s) = error s.
Proof.
  apply (collection_is_fixed_once_settled
           [ClickNext; SearchInput "a"; FetchSettled (JsonParsed []);
            ScrollEvent atBottom; ClickSort]
           (fetchUsers (JsonParsed twelveUsers) (initialState None))).
  reflexivity.
Defined.

(** X15. While the fetch is outstanding nothing the user does has any
    effect: from the state after mounting, any sequence of scrolls, clicks,
    inputs and timeouts leaves the state exactly as it was. *)
Theorem nothing_changes_while_loading
    (stored searchParam companyParam : option string) (events : list Event) :
  forallb isUserEvent events = true →
  run events (seedFromUrl searchParam companyParam (initialState stored))
  = seedFromUrl searchParam companyParam (initialState stored).
Proof. apply run_pending, initial_pending. Qed.

Lemma nothing_changes_while_loading_witness :
  run [ScrollEvent atBottom; ClickNext; SearchInput "a"; CompanySelect "Acme";
       ClickSort; ClickDarkMode; ClickPrev; SearchTimeout]
      (seedFromUrl (Some "ali") None (initialState (Some "true")))
  = seedFromUrl (Some "ali") None (initialState (Some "true")).
Proof.
  apply (nothing_changes_while_loading (Some "true") (Some "ali") None
           [ScrollEvent atBottom; ClickNext; SearchInput "a";
            CompanySelect "Acme"; ClickSort; ClickDarkMode; ClickPrev;
            SearchTimeout]).
  reflexivity.
Defined.

(** X16. After any sequence of events the three load flags agree: while
    loading there is no error, no record and page 1 of 0; when there is an
    error the loading is over and there is no record and no page; and when
    there are records the loading is over and there is no error. *)
Theorem load_status_is_coherent
    (stored searchParam companyParam : option string) (events : list Event) :
  let s := run events (seedFromUrl searchParam companyParam (initialState stored)) in
  (loading s = true →
   error s = None ∧ users s = [] ∧ currentPage s = 1 ∧ totalPages s = 0)
  ∧ (error s ≠ None → loading s = false ∧ users s = [] ∧ totalPages s = 0)
  ∧ (users s ≠ [] → loading s = false ∧ error s = None).
Proof.
  intros s.
  assert (Hp : PageInvariant s) by apply run_invariant, initial_invariant.
  assert (Hs : StatusInvariant s).
  { apply run_status; [apply initial_invariant | apply initial_status]. }
  destruct Hp as [Ht Hl Hn Hr], Hs as [Hle Heu].
  assert (H0 : users s = [] → totalPages s = 0).
  { intros Hu. rewrite Ht, Hu. apply ceilDiv_0. }
  split; [|split].
  - intros Hload. destruct (Hl Hload). auto.
  - intros He. destruct (loading s) eqn:Hload.
    + by rewrite Hle in He.
    + auto.
  - intros Hu. destruct (loading s) eqn:Hload.
    + by destruct (Hl eq_refl).
    + split; [done|]. destruct (error s) eqn:He; [|done].
      destruct Hu. by apply Heu.
Qed.

(** X17. A fetch that settles with a parsed array while the component is
    loading puts that array in the state, with no error and the page count
    ceil(n / 5), and they stay through every later event. *)
Theorem successful_load_is_kept
    (stored searchParam companyParam : option string)
    (before after : list Event) (data : list User) :
  let pending :=
    run before (seedFromUrl searchParam companyParam (initialState stored)) in
  loading pending = true →
  let s := run after (handleEvent (FetchSettled (JsonParsed data)) pending) in
  users s = data ∧ error s = None ∧ loading s = false
  ∧ totalPages s = ceilDiv (Z.of_nat (length data)) usersPerPage.
Proof.
  intros pending Hload s.
  assert (Hs : StatusInvariant pending).
  { apply run_status; [apply initial_invariant | apply initial_status]. }
  destruct (run_settled after
              (handleEvent (FetchSettled (JsonParsed data)) pending))
    as (Hl & Hu & Ht & He).
  { simpl. by rewrite Hload. }
  fold s in Hl, Hu, Ht, He. rewrite Hu, Ht, He, Hl. simpl. rewrite Hload. simpl.
  repeat split. by apply Hs.
Qed.

Lemma successful_load_is_kept_witness :
  let s := run [ClickNext; FetchSettled ResponseNotOk; SearchInput "a"]
             (handleEvent (FetchSettled (JsonParsed twelveUsers))
                (run [ScrollEvent atBottom]
                   (seedFromUrl None (Some "Acme") (initialState None)))) in
  users s = twelveUsers ∧ error s = None ∧ loading s = false
  ∧ totalPages s = ceilDiv (Z.of_nat (length twelveUsers)) usersPerPage.
Proof.
  apply (successful_load_is_kept None None (Some "Acme") [ScrollEvent atBottom]
           [ClickNext; FetchSettled ResponseNotOk; SearchInput "a"] twelveUsers).
  reflexivity.
Defined.

(** ** The display theme *)

#[local] Set Warnings "-clear-no-such-hyp".

Section theme_facts.

Lemma stored_theme_read (dark : bool) :
  darkMode (initialState (Some (stringOfBool dark))) = dark.
Proof. by destruct dark. Qed.

Lemma darkModeEffect_storage dark b :
  localStorage (darkModeEffect dark b) !! "darkMode" = Some (stringOfBool dark)
  ∧ ∀ key, key ≠ "darkMode" →
      localStorage (darkModeEffect dark b) !! key = localStorage b !! key.
Proof.
  split; simpl; [apply lookup_insert_eq|].
  intros key Hkey. by apply lookup_insert_ne.
Qed.

Lemma darkModeEffect_classes dark b :
  ("dark" ∈ classList (darkModeEffect dark b) ↔ dark = true)
  ∧ ∀ c, c ≠ "dark" → c ∈ classList (darkModeEffect dark b) ↔ c ∈ classList b.
Proof. destruct dark; simpl; split; try intros c Hc; set_solver. Qed.

Lemma darkModeEffect_twice dark dark' b :
  darkModeEffect dark (darkModeEffect dark' b) = darkModeEffect dark b.
Proof.
  unfold darkModeEffect. simpl. f_equal; [apply insert_insert_eq|].
  apply set_eq. intros x. destruct (decide (x = "dark")) as [->|Hx].
  - destruct dark, dark';
      rewrite ?elem_of_union, ?elem_of_difference, ?elem_of_union,
        ?elem_of_singleton; tauto.
  - destruct dark, dark';
      rewrite ?elem_of_union, ?elem_of_difference, ?elem_of_union,
        ?elem_of_difference, ?elem_of_singleton; tauto.
Qed.

Lemma clicks_theme (n : nat) (b : Browser) :
  let sb := Nat.iter n clickDarkMode (mountIn b) in
  snd sb = darkModeEffect (darkMode (fst sb)) (snd sb)
  ∧ darkMode (fst sb)
    = xorb (Nat.odd n) (bool_decide (localStorage b !! "darkMode" = Some "true"))
  ∧ (∀ key, key ≠ "darkMode" →
       localStorage (snd sb) !! key = localStorage b !! key)
  ∧ (∀ c, c ≠ "dark" → c ∈ classList (snd sb) ↔ c ∈ classList b).
Proof.
  induction n as [|n IH]; cbv zeta in *.
  - simpl. split; [|split; [|split]].
    + by rewrite darkModeEffect_twice.
    + by destruct (bool_decide _).
    + apply darkModeEffect_storage.
    + apply darkModeEffect_classes.
  - rewrite Nat.odd_succ, <- Nat.negb_odd.
    destruct IH as (Heff & Hd & Hst & Hcl).
    change (Nat.iter (S n) clickDarkMode (mountIn b))
      with (clickDarkMode (Nat.iter n clickDarkMode (mountIn b))).
    set (sb := Nat.iter n clickDarkMode (mountIn b)) in *. clearbody sb.
    destruct sb as [s0 b0]. unfold clickDarkMode, toggleDarkMode. simpl in *.
    split; [|split; [|split]].
    + by rewrite darkModeEffect_twice.
    + rewrite Hd. by destruct (Nat.odd n), (bool_decide _).
    + intros key Hkey. rewrite lookup_insert_ne by done. by apply Hst.
    + intros c Hc. rewrite <- (Hcl c Hc).
      apply (darkModeEffect_classes (negb (darkMode s0)) b0). done.
Qed.

End theme_facts.

(** X18. The theme survives a reload: after mounting in any browser and any
    number of clicks on the theme button, the stored value is the current
    theme, the document has the class "dark" exactly when the theme is dark,
    and a component mounted afresh on that storage starts with the same
    theme. The theme is the stored one flipped once per click (light when
    nothing or anything but "true" was stored), and no other storage key and
    no other class is touched. *)
Theorem theme_survives_reload (n : nat) (b : Browser) :
  let sb := Nat.iter n clickDarkMode (mountIn b) in
  localStorage (snd sb) !! "darkMode" = Some (stringOfBool (darkMode (fst sb)))
  ∧ ("dark" ∈ classList (snd sb) ↔ darkMode (fst sb) = true)
  ∧ darkMode (fst (mountIn (snd sb))) = darkMode (fst sb)
  ∧ darkMode (fst sb)
    = xorb (Nat.odd n) (bool_decide (localStorage b !! "darkMode" = Some "true"))
  ∧ (∀ key, key ≠ "darkMode" →
       localStorage (snd sb) !! key = localStorage b !! key)
  ∧ (∀ c, c ≠ "dark" → c ∈ classList (snd sb) ↔ c ∈ classList b).
Proof.
  intros sb. destruct (clicks_theme n b) as (Heff & Hd & Hst & Hcl).
  fold sb in Heff, Hd, Hst, Hcl.
  assert (Hstored : localStorage (snd sb) !! "darkMode"
                    = Some (stringOfBool (darkMode (fst sb)))).
  { rewrite Heff. apply darkModeEffect_storage. }
  split; [done|]. split; [rewrite Heff; apply darkModeEffect_classes|].
  split; [|done]. unfold mountIn. cbn [fst]. rewrite Hstored.
  apply stored_theme_read.
Qed.

(** X19. What the theme effect leaves behind depends on the latest theme
    only: running it for one theme and then for another gives what running it
    for the second alone gives, so running it twice for the same theme is the
    same as running it once. *)
Theorem theme_effect_last_wins (dark dark' : bool) (b : Browser) :
  darkModeEffect dark (darkModeEffect dark' b) = darkModeEffect dark b.
Proof. apply darkModeEffect_twice. Qed.

(** ** More on the search box *)

Section more_debounce.
Import Debounce.

(** What running a pending timeout, or letting time pass, adds: at most one
    call, with the value the state already has. *)
Lemma fire_calls s :
  timerHoldsSearch s →
  search (fire s) = search s
  ∧ timerHoldsSearch (fire s)
  ∧ ∃ fired, calls (fire s) = calls s ++ fired
             ∧ ∀ c, c ∈ fired → c.2 = search s.
Proof.
  intros Hs. split; [by apply fire_search|].
  split; [by apply fire_timerHoldsSearch|].
  unfold fire. destruct (timer s) as [[due value]|] eqn:Ht.
  - exists [(due, value)]. unfold debounceSearch, Debounce.setSearch. simpl.
    split; [by case_bool_decide|].
    intros c ->%list_elem_of_singleton. simpl. by apply (Hs due).
  - exists []. rewrite app_nil_r. split; [done|]. by intros c ?%elem_of_nil.
Qed.

Lemma advance_calls now s :
  timerHoldsSearch s →
  search (advance now s) = search s
  ∧ timerHoldsSearch (advance now s)
  ∧ ∃ fired, calls (advance now s) = calls s ++ fired
             ∧ ∀ c, c ∈ fired → c.2 = search s.
Proof.
  intros Hs. unfold advance.
  assert (Hid : search s = search s ∧ timerHoldsSearch s
                ∧ ∃ fired, calls s = calls s ++ fired
                           ∧ ∀ c, c ∈ fired → c.2 = search s).
  { repeat split; [done|]. exists []. rewrite app_nil_r.
    split; [done|]. by intros c ?%elem_of_nil. }
  destruct (timer s) as [[due value]|] eqn:Ht; [|done].
  destruct (due <=? now); [by apply fire_calls | done].
Qed.

Lemma debounceSearch_calls now value s :
  calls (debounceSearch now value s) = calls s ++ [(now, value)].
Proof. unfold debounceSearch, Debounce.setSearch. by case_bool_decide. Qed.

Lemma type_cons now value inputs s :
  type ((now, value) :: inputs) s
  = type inputs (debounceSearch now value (advance now s)).
Proof. done. Qed.

Lemma type_calls inputs s :
  timerHoldsSearch s →
  search (type inputs s) = default (search s) (snd <$> last inputs)
  ∧ timerHoldsSearch (type inputs s)
  ∧ ∃ added, calls (type inputs s) = calls s ++ added
             ∧ inputs `sublist_of` added
             ∧ ∀ c, c ∈ added → c.2 = search s ∨ c.2 ∈ inputs.*2.
Proof.
  revert s. induction inputs as [|[now value] inputs IH]; intros s Hs.
  { simpl. repeat split; [done|]. exists []. rewrite app_nil_r.
    repeat split; [done|]. by intros c ?%elem_of_nil. }
  rewrite type_cons.
  destruct (advance_calls now s Hs) as (Hsearch & Hs1 & fired & Hcalls & Hfired).
  set (s1 := advance now s) in *.
  pose proof (setSearch_timerHoldsSearch now value s1 Hs1) as Hs2.
  fold (debounceSearch now value s1) in Hs2.
  destruct (IH _ Hs2) as (Hlast & Hs3 & added & Hadded & Hsub & Hvals).
  destruct (debounceSearch_search now value s1) as [Hv _].
  split; [|split; [done|]].
  - rewrite Hlast, Hv, last_cons. by destruct (last inputs).
  - exists (fired ++ (now, value) :: added).
    rewrite Hadded, debounceSearch_calls, Hcalls, <- !app_assoc. simpl.
    split; [done|]. split.
    + apply sublist_inserts_l. by apply sublist_skip.
    + intros c. change (c ∈ fired ++ (now, value) :: added →
                        c.2 = search s ∨ c.2 ∈ value :: inputs.*2).
      rewrite elem_of_app, !elem_of_cons.
      intros [Hc | [-> | Hc]].
      * left. by apply Hfired.
      * right. by left.
      * right. destruct (Hvals c Hc) as [Hc' | Hc']; [left | by right].
        by rewrite Hc', Hv.
Qed.

End more_debounce.

(** X20. The search box has no quiet period for any sequence of inputs:
    after the component mounts, every input event is a call of the setter
    with its own value at its own time, in input order; the search text in
    the state is the value of the latest input; the timeouts only ever call
    the setter with the empty initial text or a value that was typed; and
    running the pending timeout does not change the search text. *)
Theorem every_input_is_committed (inputs : list (Z * string)) :
  let d := Debounce.type inputs Debounce.mount in
  Debounce.search d = default "" (snd <$> last inputs)
  ∧ inputs `sublist_of` Debounce.calls d
  ∧ (∀ c, c ∈ Debounce.calls (Debounce.settle d) → c.2 = "" ∨ c.2 ∈ inputs.*2)
  ∧ Debounce.search (Debounce.settle d) = Debounce.search d.
Proof.
  intros d.
  destruct (type_calls inputs Debounce.mount mount_timerHoldsSearch)
    as (Hlast & Hd & added & Hadded & Hsub & Hvals).
  fold d in Hlast, Hd, Hadded.
  destruct (fire_calls d Hd) as (Hsearch & _ & fired & Hcalls & Hfired).
  split; [done|]. split; [by rewrite Hadded|]. split; [|done].
  intros c. unfold Debounce.settle. rewrite Hcalls, Hadded. simpl.
  rewrite elem_of_app. intros [Hc | Hc]; [by apply Hvals|].
  rewrite (Hfired c Hc), Hlast.
  destruct (last inputs) as [[t v]|] eqn:Hl; simpl; [right | by left].
  apply last_Some_elem_of in Hl.
  apply (list_elem_of_fmap_2 snd) in Hl. done.
Qed.

(** X21. Opening the page with [search] and [company] in the address gives,
    once the collection is loaded, the very state that opening it without
    them and then typing that search text and choosing that company gives; a
    parameter that is absent or empty counts for nothing. *)
Theorem url_seed_is_typing (stored searchParam companyParam : option string)
    (data : list User) :
  run [FetchSettled (JsonParsed data)]
    (seedFromUrl searchParam companyParam (initialState stored))
  = run (FetchSettled (JsonParsed data) :: seedEvents searchParam companyParam)
      (initialState stored)
  ∧ seedEvents (Some "") companyParam = seedEvents None companyParam
  ∧ seedEvents searchParam (Some "") = seedEvents searchParam None
  ∧ seedFromUrl (Some "") (Some "") (initialState stored) = initialState stored.
Proof.
  split; [|done].
  by destruct searchParam as [[|]|], companyParam as [[|]|].
Qed.

(** ** Scroll events and the listener that handles them *)

Section listener_facts.

Lemma handleScroll_installed m s :
  handleScroll m s = listenerScroll (installed s) m s.
Proof. done. Qed.

Lemma steps_cons x xs c : steps (x :: xs) c = steps xs (step x c).
Proof. done. Qed.

Lemma steps_app xs ys c : steps (xs ++ ys) c = steps ys (steps xs c).
Proof. apply foldl_app. Qed.

Lemma step_prompt e s :
  step Effects (step (Handle e) (mounted s)) = mounted (handleEvent e s).
Proof. by destruct e. Qed.

(** With the effects run after every event, the steps are [run]. *)
Lemma steps_promptly events s :
  steps (promptly events) (mounted s) = mounted (run events s).
Proof.
  revert s. induction events as [|e events IH]; intros s; [done|].
  change (promptly (e :: events)) with ([Handle e; Effects] ++ promptly events).
  rewrite steps_app. change (steps [Handle e; Effects] (mounted s))
    with (step Effects (step (Handle e) (mounted s))).
  by rewrite step_prompt, IH.
Qed.

Lemma listenerScroll_cases l m s :
  nearBottom m && (seenPage l <? seenTotal l) = true
  ∧ listenerScroll l m s = setCurrentPage (currentPage s + 1) s
  ∨ nearBottom m && (seenPage l <? seenTotal l) = false
    ∧ listenerScroll l m s = s.
Proof. unfold listenerScroll. destruct (_ && _); auto. Qed.

Lemma scroll_run m s (n : nat) :
  nearBottom m = true → currentPage s ≤ totalPages s →
  run (replicate n (ScrollEvent m)) s
  = setCurrentPage (Z.min (currentPage s + Z.of_nat n) (totalPages s)) s.
Proof.
  intros Hm. revert s. induction n as [|n IH]; intros s Hs.
  { simpl. rewrite Z.add_0_r, Z.min_l by done. by rewrite setCurrentPage_same. }
  change (replicate (S n) (ScrollEvent m))
    with (ScrollEvent m :: replicate n (ScrollEvent m)).
  rewrite run_cons. cbn [handleEvent]. unfold handleScroll. rewrite Hm. simpl.
  destruct (Z.ltb_spec (currentPage s) (totalPages s)).
  - rewrite IH by (simpl; lia). simpl. rewrite setCurrentPage_twice.
    f_equal. lia.
  - rewrite IH by done. f_equal. lia.
Qed.

(** Scroll events handled by one and the same listener. *)
Lemma scroll_same_listener m c (n : nat) :
  steps (replicate n (Handle (ScrollEvent m))) c
  = {| appState :=
         if nearBottom m && (seenPage (scrollListener c) <? seenTotal (scrollListener c))
         then setCurrentPage (currentPage (appState c) + Z.of_nat n) (appState c)
         else appState c;
       scrollListener := scrollListener c |}.
Proof.
  revert c. induction n as [|n IH]; intros [s l].
  { simpl. destruct (_ && _); [|done].
    by rewrite Z.add_0_r, setCurrentPage_same. }
  change (replicate (S n) (Handle (ScrollEvent m)))
    with (Handle (ScrollEvent m) :: replicate n (Handle (ScrollEvent m))).
  rewrite steps_cons, IH. cbn [step appState scrollListener].
  unfold listenerScroll. destruct (_ && _); [|done].
  rewrite setCurrentPage_twice. simpl. do 2 f_equal. lia.
Qed.

Lemma handleEvent_step_invariant e c :
  (∀ m, e ≠ ScrollEvent m) → StepInvariant c →
  StepInvariant {| appState := handleEvent e (appState c);
                   scrollListener := scrollListener c |}.
Proof.
  intros He [Ht Hl Hn Hr]. destruct c as [s l]. simpl in *.
  assert (Hsame : ∀ s', loading s' = loading s → users s' = users s →
                        currentPage s' = currentPage s →
                        totalPages s' = totalPages s →
                        StepInvariant {| appState := s'; scrollListener := l |}).
  { intros s' H1 H2 H3 H4. constructor; simpl; rewrite ?H1, ?H2, ?H3, ?H4; try done.
    intros Hload. destruct (Hl Hload) as (? & ? & ->).
    repeat split; try done. unfold installed. by rewrite H3, H4. }
  assert (Hchange : ∀ d, loading s = false →
            StepInvariant {| appState := changePage d s; scrollListener := l |}).
  { intros d Hload. constructor; simpl.
    - done.
    - by rewrite Hload.
    - intros Hu. specialize (Hn Hu).
      pose proof (users_nonempty_pages _ Hu). lia.
    - assert (0 ≤ totalPages s); [|lia].
      rewrite Ht. apply ceilDiv_nonneg; [done | lia]. }
  destruct e as [o|m| | |v|v| | |]; simpl.
  - destruct (loading s) eqn:Hload; [|by apply Hsame].
    destruct (Hl eq_refl) as (Hu & Hc & _).
    destruct o as [msg| |msg|data]; constructor; simpl; try done; try lia.
  - by destruct (He m).
  - destruct (controlsRendered s) eqn:Hc; simpl; [|by apply Hsame].
    destruct (negb _); [|by apply Hsame].
    by apply Hchange, controlsRendered_loaded.
  - destruct (controlsRendered s) eqn:Hc; simpl; [|by apply Hsame].
    destruct (negb _); [|by apply Hsame].
    by apply Hchange, controlsRendered_loaded.
  - destruct (controlsRendered s); by apply Hsame.
  - destruct (controlsRendered s); by apply Hsame.
  - destruct (controlsRendered s); by apply Hsame.
  - destruct (controlsRendered s); by apply Hsame.
  - by apply Hsame.
Qed.

Lemma step_invariant x c : StepInvariant c → StepInvariant (step x c).
Proof.
  intros Hc. destruct x as [e|].
  - destruct e as [o|m| | |v|v| | |];
      try (apply (handleEvent_step_invariant _ c); [by intros m' | done]).
    destruct Hc as [Ht Hl Hn Hr]. destruct c as [s l]. simpl in *.
    destruct (listenerScroll_cases l m s) as [[Hg ->]|[Hg ->]];
      [|by constructor].
    apply andb_true_iff in Hg as [_ Hg%Z.ltb_lt].
    constructor; simpl; try done.
    + intros Hload. destruct (Hl Hload) as (Hu & Hp & ->). simpl in Hg.
      rewrite Hu in Ht. simpl in Ht. rewrite ceilDiv_0 in Ht. lia.
    + intros Hu. specialize (Hn Hu). lia.
    + lia.
  - destruct Hc as [Ht Hl Hn Hr]. constructor; simpl; try done.
    intros Hload. by destruct (Hl Hload) as (? & ? & _).
Qed.

Lemma steps_invariant xs c : StepInvariant c → StepInvariant (steps xs c).
Proof.
  revert c. induction xs as [|x xs IH]; intros c Hc; [done|].
  rewrite steps_cons. by apply IH, step_invariant.
Qed.

Lemma mounted_invariant stored searchParam companyParam :
  StepInvariant
    (mounted (seedFromUrl searchParam companyParam (initialState stored))).
Proof.
  unfold seedFromUrl.
  destruct searchParam as [[|]|], companyParam as [[|]|]; by constructor.
Qed.

End listener_facts.

(** C1, amended: after any sequence of steps, whichever listener handled the
    scroll events, the page count of the state is the ceiling of the size of
    the whole loaded collection over the page size, a new search text or
    category filter changes neither the page count nor the page index, and
    the page index is at least 1 whenever the collection is not empty. When the
    effects of every render run before the next event is handled, so that
    every scroll event is handled by the listener of the latest render, the
    page index is moreover at most max(1, pageCount), and within
    [1, pageCount] whenever the collection is not empty. *)
Theorem page_index_and_collection_pages
    (stored searchParam companyParam : option string)
    (xs : list Step) (events : list Event) :
  let start := seedFromUrl searchParam companyParam (initialState stored) in
  let c := steps xs (mounted start) in
  let s := appState c in
  let s' := appState (steps (promptly events) (mounted start)) in
  totalPages s = ceilDiv (Z.of_nat (length (users s))) usersPerPage
  ∧ (users s ≠ [] → 1 ≤ currentPage s)
  ∧ (∀ value,
       currentPage (appState (step (Handle (SearchInput value)) c))
         = currentPage s
       ∧ totalPages (appState (step (Handle (SearchInput value)) c))
         = totalPages s
       ∧ currentPage (appState (step (Handle (CompanySelect value)) c))
         = currentPage s
       ∧ totalPages (appState (step (Handle (CompanySelect value)) c))
         = totalPages s)
  ∧ s' = run events start
  ∧ currentPage s' ≤ Z.max 1 (totalPages s')
  ∧ (users s' ≠ [] → 1 ≤ currentPage s' ≤ totalPages s').
Proof.
  intros start c s s'.
  destruct (steps_invariant xs _
              (mounted_invariant stored searchParam companyParam))
    as [Ht Hl Hn Hr].
  fold start in Ht, Hl, Hn, Hr. fold c in Ht, Hl, Hn, Hr. fold s in Ht, Hl, Hn, Hr.
  assert (Hs' : s' = run events start).
  { unfold s'. by rewrite steps_promptly. }
  destruct (run_invariant events _
              (initial_invariant stored searchParam companyParam))
    as [Ht' Hl' Hn' Hr'].
  fold start in Ht', Hl', Hn', Hr'. rewrite <- Hs' in Ht', Hl', Hn', Hr'.
  split; [done|]. split; [done|]. split.
  { intros value. simpl. fold s. by destruct (controlsRendered s). }
  split; [done|]. split; [lia | done].
Qed.

(** ** Scrolling with the installed listener *)

(** C5, as the specification has it: a scroll event never advances the page
    index past the page count. It does not hold. With 12 records and the
    search text "eve" the filtered set has one page, and a scroll event at
    the bottom on page 1 goes to page 2: the condition reads the page count of
    the whole collection. And that page count is passed too, when three
    scroll events at the bottom are handled by the listener that was
    installed on page 1 of 3: they go to page 4. *)
Lemma scroll_passes_the_page_count :
  specPageCount searchOnFirstPage = 1
  ∧ currentPage searchOnFirstPage = 1
  ∧ currentPage
      (listenerScroll (installed searchOnFirstPage) atBottom searchOnFirstPage)
    = 2
  ∧ totalPages (appState staleScrolls) = 3
  ∧ currentPage (appState staleScrolls) = 4.
Proof. repeat split; reflexivity. Qed.

(** C5, amended: a scroll event whose distance to the bottom is at most 5,
    handled by a listener that saw a page index below the page count of the
    whole collection (totalPages, not the page count of the filtered set),
    adds exactly 1 to the page index; a scroll event changes nothing else,
    and never lowers the page index; handled by the listener of the current
    render, it does not take the page index from within totalPages to beyond
    it. With 12 records (totalPages 3), page index 1 and every scroll event
    handled after the effects of the previous render have run, scroll events
    at the bottom give 2, then 3, and then 3 after any number of further
    ones. *)
Theorem scroll_advances_by_one (l : Listener) (m : ScrollMetrics)
    (s : AppState) (data : list User) (stored : option string) (n : nat) :
  (scrollHeight m - (innerHeight m + scrollTop m) ≤ 5 →
   seenPage l < seenTotal l →
   listenerScroll l m s = setCurrentPage (currentPage s + 1) s)
  ∧ (listenerScroll l m s = s
     ∨ listenerScroll l m s = setCurrentPage (currentPage s + 1) s)
  ∧ currentPage s ≤ currentPage (listenerScroll l m s)
  ∧ (currentPage s ≤ totalPages s →
     currentPage (listenerScroll (installed s) m s) ≤ totalPages s)
  ∧ (length data = 12%nat → nearBottom m = true →
     let after k :=
       appState
         (steps (promptly (FetchSettled (JsonParsed data)
                           :: replicate k (ScrollEvent m)))
                (mounted (initialState stored))) in
     totalPages (after 0%nat) = 3 ∧ currentPage (after 0%nat) = 1
     ∧ currentPage (after 1%nat) = 2
     ∧ currentPage (after 2%nat) = 3
     ∧ currentPage (after (3 + n)%nat) = 3).
Proof.
  split; [|split; [|split; [|split]]].
  - intros Hm%nearBottom_spec Hlt%Z.ltb_lt. unfold listenerScroll.
    by rewrite Hm, Hlt.
  - destruct (listenerScroll_cases l m s) as [[_ ->]|[_ ->]]; auto.
  - destruct (listenerScroll_cases l m s) as [[_ ->]|[_ ->]]; simpl; lia.
  - intros Hs.
    destruct (listenerScroll_cases (installed s) m s) as [[Hg ->]|[_ ->]];
      [|done].
    apply andb_true_iff in Hg as [_ Hg%Z.ltb_lt]. simpl in *. lia.
  - intros Hdata Hm after.
    assert (Hafter : ∀ k, after k
              = setCurrentPage (Z.min (1 + Z.of_nat k) 3)
                  (fetchUsers (JsonParsed data) (initialState stored))).
    { intros k. unfold after. rewrite steps_promptly. cbn [appState].
      rewrite run_cons. change (handleEvent _ (initialState stored))
        with (fetchUsers (JsonParsed data) (initialState stored)).
      rewrite scroll_run; [|done|simpl; rewrite Hdata; done].
      simpl. by rewrite Hdata. }
    rewrite !Hafter. simpl. rewrite Hdata. repeat split; try done. lia.
Qed.

(** X11. Scroll events at the bottom, each handled after the effects of the
    previous render have run, change only the page index, from a page index
    within the page count to min(pageIndex + n, totalPages) after n events.
    Handled by one and the same listener, with no effects run in between,
    n scroll events add n to the page index when that listener saw a page
    index below the page count, however many pages there are, and change
    nothing otherwise; scroll events away from the bottom change nothing. *)
Theorem scrolling_n_times (m : ScrollMetrics) (c : Mounted) (n : nat) :
  (nearBottom m = true →
   currentPage (appState c) ≤ totalPages (appState c) →
   steps (promptly (replicate n (ScrollEvent m))) (mounted (appState c))
   = mounted
       (setCurrentPage
          (Z.min (currentPage (appState c) + Z.of_nat n)
                 (totalPages (appState c)))
          (appState c)))
  ∧ steps (replicate n (Handle (ScrollEvent m))) c
    = {| appState :=
           if nearBottom m
              && (seenPage (scrollListener c) <? seenTotal (scrollListener c))
           then setCurrentPage (currentPage (appState c) + Z.of_nat n)
                  (appState c)
           else appState c;
         scrollListener := scrollListener c |}
  ∧ (nearBottom m = false →
     steps (replicate n (Handle (ScrollEvent m))) c = c).
Proof.
  split; [|split].
  - intros Hm Hs. by rewrite steps_promptly, scroll_run.
  - apply scroll_same_listener.
  - intros Hm. rewrite scroll_same_listener, Hm. by destruct c.
Qed.

(** X22. With the controls on screen, at least one page and a page index of
    at least 1: Next adds exactly one below the page count, changes nothing
    at the page count, and from a page index beyond the page count goes to
    the page count; Prev changes nothing on page 1, takes exactly one off up
    to one page beyond the page count, and from further beyond goes to the
    page count. Neither touches anything but the page index. *)
Theorem page_buttons_step_by_one (s : AppState) :
  controlsRendered s = true → 1 ≤ totalPages s → 1 ≤ currentPage s →
  handleEvent ClickNext s
  = (if currentPage s <? totalPages s
     then setCurrentPage (currentPage s + 1) s
     else if currentPage s =? totalPages s then s
     else setCurrentPage (totalPages s) s)
  ∧ handleEvent ClickPrev s
    = (if currentPage s =? 1 then s
       else if currentPage s <=? totalPages s + 1
       then setCurrentPage (currentPage s - 1) s
       else setCurrentPage (totalPages s) s).
Proof.
  intros Hc Ht Hp. simpl. rewrite Hc. unfold changePage. simpl. split.
  - destruct (Z.ltb_spec (currentPage s) (totalPages s));
      destruct (Z.eqb_spec (currentPage s) (totalPages s));
      try lia; simpl; try done; f_equal; lia.
  - destruct (Z.eqb_spec (currentPage s) 1); simpl; [done|].
    destruct (Z.leb_spec (currentPage s) (totalPages s + 1)); f_equal; lia.
Qed.

Lemma page_buttons_step_by_one_witness :
  let s := appState staleScrolls in
  handleEvent ClickNext s
  = (if currentPage s <? totalPages s
     then setCurrentPage (currentPage s + 1) s
     else if currentPage s =? totalPages s then s
     else setCurrentPage (totalPages s) s)
  ∧ handleEvent ClickPrev s
    = (if currentPage s =? 1 then s
       else if currentPage s <=? totalPages s + 1
       then setCurrentPage (currentPage s - 1) s
       else setCurrentPage (totalPages s) s).
Proof.
  apply (page_buttons_step_by_one (appState staleScrolls));
    [reflexivity | by vm_compute | by vm_compute].
Defined.

(** ** The filter over the host's strings *)

Section host_strings.

Lemma host_startsWith_spec (s t : Host.JsString) :
  Host.startsWith s t = true ↔ ∃ rest, s = t ++ rest.
Proof.
  revert s. induction t as [|b t IH]; intros s.
  - split; [intros _; by exists s | by destruct s].
  - destruct s as [|a s]; simpl.
    + split; [done|]. by intros [rest ?].
    + rewrite andb_true_iff, bool_decide_eq_true, IH. split.
      * intros [-> [rest ->]]. by exists rest.
      * intros [rest [= -> ->]]. eauto.
Qed.

Lemma host_includes_spec (s t : Host.JsString) :
  Host.includes s t = true ↔ Host.occursIn t s.
Proof.
  unfold Host.occursIn. induction s as [|a s IH].
  - cbn [Host.includes]. rewrite orb_false_r, host_startsWith_spec. split.
    + intros [rest ->]. by exists [], rest.
    + intros [[|c before] [after Hs]]; [by exists after | done].
  - cbn [Host.includes]. rewrite orb_true_iff, host_startsWith_spec, IH. split.
    + intros [[rest ->] | (before & after & ->)].
      * by exists [], rest.
      * by exists (a :: before), after.
    + intros [[|c before] [after Hs]].
      * left. by exists after.
      * right. injection Hs as _ ->. eauto.
Qed.

Lemma host_includes_nil (s : Host.JsString) : Host.includes s [] = true.
Proof. by destruct s. Qed.

Lemma host_occursIn_trans (s t u : Host.JsString) :
  Host.occursIn u t → Host.occursIn t s → Host.occursIn u s.
Proof.
  intros (p' & q' & ->) (p & q & ->).
  exists (p ++ p'), (q' ++ q). by rewrite <- !app_assoc.
Qed.

Lemma asciiLower_sameLetter (a b : N) :
  Host.asciiLower a = Host.asciiLower b ↔ Host.sameLetter a b.
Proof.
  unfold Host.asciiLower, Host.sameLetter.
  destruct (N.leb_spec 65 a), (N.leb_spec a 90),
    (N.leb_spec 65 b), (N.leb_spec b 90); simpl; lia.
Qed.

Lemma asciiLower_ci_equal (s t : Host.JsString) :
  Host.asciiLower <$> s = Host.asciiLower <$> t ↔ Host.ci_equal s t.
Proof.
  unfold Host.ci_equal. split.
  - revert t. induction s as [|a s IH]; intros [|b t] Heq;
      try done; try by constructor.
    injection Heq as Hab Hst. constructor; [by apply asciiLower_sameLetter|].
    by apply IH.
  - induction 1 as [|a b s t Hab _ IH]; [done|].
    rewrite !fmap_cons, IH. f_equal. by apply asciiLower_sameLetter.
Qed.

Lemma asciiLower_ci_substring (s t : Host.JsString) :
  Host.occursIn (Host.asciiLower <$> t) (Host.asciiLower <$> s)
  ↔ Host.ci_substring s t.
Proof.
  unfold Host.occursIn, Host.ci_substring. split.
  - intros (before & after & Hs).
    apply fmap_app_inv in Hs as (s1 & s23 & -> & Hs & ->).
    symmetry in Hs. apply fmap_app_inv in Hs as (s2 & s3 & Hm & -> & ->).
    exists s1, s2, s3. split; [done|]. by apply asciiLower_ci_equal.
  - intros (s1 & s2 & s3 & -> & Hm%asciiLower_ci_equal).
    exists (Host.asciiLower <$> s1), (Host.asciiLower <$> s3).
    by rewrite !fmap_app, Hm.
Qed.

End host_strings.

Section host_filter.
Context (toLowerCase : Host.JsString → Host.JsString).

Lemma host_isCompanyMatch_spec companyFilter u :
  Host.isCompanyMatch toLowerCase companyFilter u = true ↔
  companyFilter = []
  ∨ toLowerCase (Host.company_name (Host.company u)) = toLowerCase companyFilter.
Proof.
  unfold Host.isCompanyMatch. destruct companyFilter as [|c f]; cbn [Host.truthy].
  - split; [by left | done].
  - rewrite bool_decide_eq_true. split; [by right | by intros [? | ?]].
Qed.

Lemma host_filteredUsers_elem users search companyFilter u :
  u ∈ Host.filteredUsers toLowerCase users search companyFilter ↔
  u ∈ users
  ∧ Host.occursIn (toLowerCase search) (toLowerCase (Host.name u))
  ∧ (companyFilter = []
     ∨ toLowerCase (Host.company_name (Host.company u))
       = toLowerCase companyFilter).
Proof.
  unfold Host.filteredUsers, Host.isNameMatch.
  rewrite !list_elem_of_In, filter_In, andb_true_iff, host_includes_spec,
    host_isCompanyMatch_spec. tauto.
Qed.

Lemma host_filteredUsers_sublist users search companyFilter :
  Host.filteredUsers toLowerCase users search companyFilter `sublist_of` users.
Proof.
  unfold Host.filteredUsers. induction users as [|x l IH]; simpl; [done|].
  destruct (_ && _); by constructor.
Qed.

Lemma asciiLaw_nil : Host.AsciiLaw toLowerCase → toLowerCase [] = [].
Proof. intros H. by rewrite H by constructor. Qed.

End host_filter.

Section sample_host.

Lemma lowerUnit_ascii (c : N) : (c < 128)%N → lowerUnit c = Host.asciiLower c.
Proof.
  intros Hc. unfold lowerUnit, Host.asciiLower.
  destruct ((65 <=? c)%N && (c <=? 90)%N); [done|].
  destruct (N.leb_spec 192 c); [lia|]. destruct (N.leb_spec 913 c); [lia|].
  done.
Qed.

Lemma lowerFrom_ascii casedBefore (s : Host.JsString) :
  Host.isAscii s → lowerFrom casedBefore s = Host.asciiLower <$> s.
Proof.
  intros Hs. revert casedBefore.
  induction Hs as [|c s Hc _ IH]; intros casedBefore; [done|].
  cbn [lowerFrom]. rewrite IH, fmap_cons, lowerUnit_ascii by done.
  destruct (N.eqb_spec c 931); [lia | done].
Qed.

Lemma sampleLower_ascii : Host.AsciiLaw sampleLower.
Proof. intros s Hs. by apply lowerFrom_ascii. Qed.

Lemma units_ascii_example :
  sampleLower (units "Bob") = units "bob"
  ∧ sampleLower [201; 99; 111; 108; 101]%N = [233; 99; 111; 108; 101]%N.
Proof. split; reflexivity. Qed.

End sample_host.

(** C4, as the specification has it: a record is kept when its name
    contains the search text as a case-insensitive substring. It does not
    hold: the name made of the Greek capitals omicron, delta, omicron, sigma
    contains the search text made of the capital sigma as it is written, and
    the filter, with no company selected, drops the record, because
    [toLowerCase] turns the sigma at the end of the name into the final small
    sigma and the sigma that stands alone into the other small sigma. *)
Lemma filter_drops_a_written_match :
  Host.occursIn [931%N] (Host.name odos)
  ∧ sampleLower (Host.name odos) = [959; 948; 959; 962]%N
  ∧ sampleLower [931%N] = [963%N]
  ∧ Host.filteredUsers sampleLower [odos] [931%N] [] = [].
Proof.
  split; [by exists [927; 916; 927]%N, [] |]. repeat split; reflexivity.
Qed.

(** C4, amended: whatever [toLowerCase] does, a record of the collection is
    kept by the filter exactly when the lowered search text occurs in its
    lowered name and the category filter is empty or lowers to what the
    record's company name lowers to; the kept records stay in collection
    order. For a [toLowerCase] that lowers the letters A-Z in Basic Latin
    text, as the built-in does, the empty search text matches every record,
    and on records and queries in Basic Latin a record is kept exactly when
    its name contains the search text as a case-insensitive substring and the
    category filter is empty or equal to the company name up to case. *)
Theorem filter_predicate_lowered
    (toLowerCase : Host.JsString → Host.JsString) (users : list Host.User)
    (search companyFilter : Host.JsString) (u : Host.User) :
  let kept := Host.filteredUsers toLowerCase users search companyFilter in
  (u ∈ kept ↔
     u ∈ users
     ∧ Host.occursIn (toLowerCase search) (toLowerCase (Host.name u))
     ∧ (companyFilter = []
        ∨ toLowerCase (Host.company_name (Host.company u))
          = toLowerCase companyFilter))
  ∧ kept `sublist_of` users
  ∧ (Host.AsciiLaw toLowerCase →
     Host.isNameMatch toLowerCase [] u = true
     ∧ (Host.isAscii (Host.name u) → Host.isAscii search →
        Host.isAscii (Host.company_name (Host.company u)) →
        Host.isAscii companyFilter →
        (u ∈ kept ↔
           u ∈ users
           ∧ Host.ci_substring (Host.name u) search
           ∧ (companyFilter = []
              ∨ Host.ci_equal (Host.company_name (Host.company u))
                  companyFilter)))).
Proof.
  intros kept. split; [apply host_filteredUsers_elem|].
  split; [apply host_filteredUsers_sublist|].
  intros Hlaw. split.
  - unfold Host.isNameMatch. rewrite (asciiLaw_nil _ Hlaw).
    apply host_includes_nil.
  - intros Hn Hs Hc Hf. unfold kept.
    rewrite host_filteredUsers_elem, !Hlaw by done.
    by rewrite asciiLower_ci_substring, asciiLower_ci_equal.
Qed.

(** X2. Results narrow with the lowered search text: when the lowered old
    search text occurs in the lowered new one, the records kept for the new
    text are a sub-sequence of those kept for the old one, whatever
    [toLowerCase] does. For a [toLowerCase] that lowers the letters A-Z in
    Basic Latin text this covers typing more: a new search text in Basic
    Latin that contains the old one as it is written keeps a sub-sequence of
    what the old one kept. *)
Theorem filter_longer_search_narrows
    (toLowerCase : Host.JsString → Host.JsString) (users : list Host.User)
    (search search' companyFilter : Host.JsString) :
  (Host.includes (toLowerCase search') (toLowerCase search) = true →
   Host.filteredUsers toLowerCase users search' companyFilter
     `sublist_of` Host.filteredUsers toLowerCase users search companyFilter)
  ∧ (Host.AsciiLaw toLowerCase → Host.isAscii search' →
     Host.occursIn search search' →
     Host.filteredUsers toLowerCase users search' companyFilter
       `sublist_of` Host.filteredUsers toLowerCase users search companyFilter).
Proof.
  assert (Hnarrow :
    Host.occursIn (toLowerCase search) (toLowerCase search') →
    Host.filteredUsers toLowerCase users search' companyFilter
      `sublist_of` Host.filteredUsers toLowerCase users search companyFilter).
  { intros Hs. apply filter_sublist_impl. intros u.
    rewrite !andb_true_iff. intros [Hn Hc]. split; [|done].
    unfold Host.isNameMatch in *. apply host_includes_spec.
    apply host_includes_spec in Hn. by eapply host_occursIn_trans. }
  split.
  - intros Hs%host_includes_spec. by apply Hnarrow.
  - intros Hlaw Ha (before & after & ->). apply Hnarrow.
    apply Forall_app in Ha as [Hb [Hs Haf]%Forall_app].
    rewrite (Hlaw search), (Hlaw (before ++ search ++ after)), !fmap_app;
      [| by repeat apply Forall_app_2 | done].
    by eexists _, _.
Qed.

(** ** The company menu *)

Section company_menu.

Let addOnce (seen : list Host.JsString) (value : Host.JsString) : list Host.JsString :=
  if decide (value ∈ seen) then seen else seen ++ [value].

Lemma addOnce_fold_spec (values seen : list Host.JsString) :
  NoDup seen →
  ∃ rest, foldl addOnce seen values = seen ++ rest
    ∧ NoDup (seen ++ rest)
    ∧ rest `sublist_of` values
    ∧ ∀ x, x ∈ seen ++ rest ↔ x ∈ seen ∨ x ∈ values.
Proof.
  revert seen. induction values as [|v values IH]; intros seen Hseen; simpl.
  { exists []. rewrite app_nil_r. repeat split; try done.
    - by left.
    - intros [? | ?%elem_of_nil]; done. }
  unfold addOnce at 2. case_decide as Hv.
  - destruct (IH seen Hseen) as (rest & -> & Hnd & Hsub & Hin).
    exists rest. repeat split; try done.
    + by apply sublist_cons.
    + rewrite Hin, elem_of_cons. tauto.
    + rewrite Hin, elem_of_cons. intros [? | [-> | ?]]; auto.
  - destruct (IH (seen ++ [v])) as (rest & -> & Hnd & Hsub & Hin).
    { apply NoDup_app. repeat split; [done | | apply NoDup_singleton].
      intros x Hx ->%list_elem_of_singleton. done. }
    exists (v :: rest). rewrite <- app_assoc in *. simpl in *.
    repeat split; try done.
    + by apply sublist_skip.
    + rewrite Hin, elem_of_app, list_elem_of_singleton, elem_of_cons. tauto.
    + rewrite Hin, elem_of_app, list_elem_of_singleton, elem_of_cons. tauto.
Qed.

Lemma arrayFromSet_spec (values : list Host.JsString) :
  NoDup (Host.arrayFromSet values)
  ∧ Host.arrayFromSet values `sublist_of` values
  ∧ ∀ x, x ∈ Host.arrayFromSet values ↔ x ∈ values.
Proof.
  destruct (addOnce_fold_spec values [] (NoDup_nil_2))
    as (rest & Heq & Hnd & Hsub & Hin).
  unfold Host.arrayFromSet. fold addOnce. rewrite Heq. simpl in *.
  repeat split; try done.
  - intros Hx. apply Hin in Hx as [?%elem_of_nil | ?]; done.
  - intros Hx. apply Hin. by right.
Qed.

Lemma addOnce_fold_skip (values a b : list Host.JsString) :
  foldl addOnce (a ++ b) values
  = a ++ foldl addOnce b (List.filter (λ x, bool_decide (x ∉ a)) values).
Proof.
  revert b. induction values as [|v values IH]; intros b; simpl; [done|].
  case_bool_decide as Ha; simpl.
  - unfold addOnce at 2 4. destruct (decide (v ∈ b)) as [Hb|Hb].
    + rewrite decide_True by (rewrite elem_of_app; tauto). apply IH.
    + rewrite decide_False by (rewrite elem_of_app; tauto).
      rewrite <- app_assoc. apply IH.
  - unfold addOnce at 2.
    rewrite decide_True by (rewrite elem_of_app; by left).
    apply IH.
Qed.

(** The first value comes first, and the rest is what the other values
    give. *)
Lemma arrayFromSet_cons (v : Host.JsString) (values : list Host.JsString) :
  Host.arrayFromSet (v :: values)
  = v :: Host.arrayFromSet (List.filter (λ x, bool_decide (x ≠ v)) values).
Proof.
  unfold Host.arrayFromSet. fold addOnce. simpl.
  change (addOnce [] v) with ([v] ++ @nil Host.JsString).
  rewrite (addOnce_fold_skip values [v] []). simpl. do 2 f_equal.
  apply filter_ext. intros x. apply bool_decide_ext.
  by rewrite list_elem_of_singleton.
Qed.

Lemma filter_fmap {A B} (f : A → B) (p : B → bool) (l : list A) :
  List.filter p (f <$> l) = f <$> List.filter (λ x, p (f x)) l.
Proof.
  induction l as [|x l IH]; simpl; [done|].
  destruct (p (f x)); simpl; [f_equal|]; exact IH.
Qed.

End company_menu.

(** X5. The company menu offers every company name of the collection
    exactly once and nothing else, in the order in which the names first
    appear. For a [toLowerCase] that leaves the empty text empty, choosing
    any offered name while the search text is empty keeps at least one
    record; when the chosen name is not empty every record it keeps has a
    company name that lowers to what the chosen name lowers to; and when a
    company name is the empty text, the option made from it has the value of
    the first option, and choosing it keeps every record. *)
Theorem company_menu_offers_each_once
    (toLowerCase : Host.JsString → Host.JsString) (users : list Host.User) :
  toLowerCase [] = [] →
  NoDup (Host.companyOptions users)
  ∧ (∀ c, c ∈ Host.companyOptions users ↔
          ∃ u, u ∈ users ∧ Host.company_name (Host.company u) = c)
  ∧ (∀ u, Host.companyOptions (u :: users)
          = Host.company_name (Host.company u)
            :: Host.companyOptions
                 (List.filter
                    (λ u', bool_decide
                             (Host.company_name (Host.company u')
                              ≠ Host.company_name (Host.company u)))
                    users))
  ∧ (∀ c, c ∈ Host.companyOptions users →
      Host.filteredUsers toLowerCase users [] c ≠ []
      ∧ (c ≠ [] → ∀ u, u ∈ Host.filteredUsers toLowerCase users [] c →
           toLowerCase (Host.company_name (Host.company u)) = toLowerCase c)
      ∧ (c = [] → Host.filteredUsers toLowerCase users [] c = users)).
Proof.
  intros Hnil. unfold Host.companyOptions.
  set (names := (λ user, Host.company_name (Host.company user)) <$> users).
  destruct (arrayFromSet_spec names) as (Hnd & Hsub & Hin).
  assert (Hex : ∀ c, c ∈ Host.arrayFromSet names
                 ↔ ∃ u, u ∈ users ∧ Host.company_name (Host.company u) = c).
  { intros c. rewrite Hin. unfold names. rewrite list_elem_of_fmap.
    split; intros (u & ? & ?); eauto. }
  assert (Hname : ∀ u, Host.isNameMatch toLowerCase [] u = true).
  { intros u. unfold Host.isNameMatch. rewrite Hnil. apply host_includes_nil. }
  split; [done|]. split; [done|]. split.
  { intros u. by rewrite fmap_cons, arrayFromSet_cons, filter_fmap. }
  intros c (u & Hu & <-)%Hex. split; [|split].
  - intros Hempty.
    assert (Hk : u ∈ Host.filteredUsers toLowerCase users []
                       (Host.company_name (Host.company u))).
    { apply host_filteredUsers_elem. split; [done|]. split; [|by right].
      apply host_includes_spec, Hname. }
    rewrite Hempty in Hk. by apply elem_of_nil in Hk.
  - intros Hc u' (_ & _ & [? | ?])%host_filteredUsers_elem; done.
  - intros ->. unfold Host.filteredUsers.
    clear -Hnil. induction users as [|x l IH]; simpl; [done|].
    rewrite IH. unfold Host.isNameMatch.
    by rewrite Hnil, host_includes_nil.
Qed.

Lemma company_menu_offers_each_once_witness :
  NoDup (Host.companyOptions (hostUser <$> twelveUsers))
  ∧ (∀ c, c ∈ Host.companyOptions (hostUser <$> twelveUsers) ↔
          ∃ u, u ∈ hostUser <$> twelveUsers
               ∧ Host.company_name (Host.company u) = c)
  ∧ (∀ u, Host.companyOptions (u :: (hostUser <$> twelveUsers))
          = Host.company_name (Host.company u)
            :: Host.companyOptions
                 (List.filter
                    (λ u', bool_decide
                             (Host.company_name (Host.company u')
                              ≠ Host.company_name (Host.company u)))
                    (hostUser <$> twelveUsers)))
  ∧ (∀ c, c ∈ Host.companyOptions (hostUser <$> twelveUsers) →
      Host.filteredUsers sampleLower (hostUser <$> twelveUsers) [] c ≠ []
      ∧ (c ≠ [] → ∀ u,
           u ∈ Host.filteredUsers sampleLower (hostUser <$> twelveUsers) [] c →
           sampleLower (Host.company_name (Host.company u)) = sampleLower c)
      ∧ (c = [] →
         Host.filteredUsers sampleLower (hostUser <$> twelveUsers) [] c
         = hostUser <$> twelveUsers)).
Proof.
  apply (company_menu_offers_each_once sampleLower (hostUser <$> twelveUsers)).
  reflexivity.
Defined.

(** ** Sorting with a consistent callback *)

Section standard_wording.
Context {A : Type} (compareFn : A → A → comparison).

Lemma comparator_antisym a b :
  ConsistentComparator compareFn → compareFn b a = CompOpp (compareFn a b).
Proof.
  intros H. destruct (compareFn a b) eqn:Hab; simpl.
  - by apply (comparator_sym _ H).
  - destruct (compareFn b a) eqn:Hba; [| |done].
    + by rewrite (comparator_sym _ H b a Hba) in Hab.
    + pose proof (comparator_lt_trans _ H a b a Hab Hba) as Haa.
      by rewrite (comparator_refl _ H) in Haa.
  - destruct (compareFn b a) eqn:Hba; [|done|].
    + by rewrite (comparator_sym _ H b a Hba) in Hab.
    + pose proof (comparator_gt_trans _ H a b a Hab Hba) as Haa.
      by rewrite (comparator_refl _ H) in Haa.
Qed.

Lemma consistent_standard :
  Consistent compareFn ↔ ConsistentComparator compareFn.
Proof.
  split; intros H.
  - assert (Hrefl : ∀ a, compareFn a a = Eq).
    { intros a. pose proof (consistent_antisym _ H a a) as Ha.
      by destruct (compareFn a a). }
    constructor; [done|..].
    + intros a b Hab. by rewrite (consistent_antisym _ H), Hab.
    + intros a b c Hab Hbc. by rewrite (consistent_tied _ H a b c).
    + apply (consistent_trans _ H).
    + intros a b c Hab Hbc.
      rewrite (consistent_antisym _ H c a).
      rewrite (consistent_trans _ H c b a); [done|..].
      * by rewrite (consistent_antisym _ H), Hbc.
      * by rewrite (consistent_antisym _ H), Hab.
  - constructor.
    + intros a b. by apply comparator_antisym.
    + apply (comparator_lt_trans _ H).
    + intros a b c Hab.
      pose proof (comparator_sym _ H a b Hab) as Hba.
      destruct (compareFn a c) eqn:Hac, (compareFn b c) eqn:Hbc; try done.
      * by rewrite (comparator_eq_trans _ H b a c Hba Hac) in Hbc.
      * by rewrite (comparator_eq_trans _ H b a c Hba Hac) in Hbc.
      * by rewrite (comparator_eq_trans _ H a b c Hab Hbc) in Hac.
      * pose proof (comparator_antisym b c H) as Hcb. rewrite Hbc in Hcb.
        simpl in Hcb.
        by rewrite (comparator_lt_trans _ H a c b Hac Hcb) in Hab.
      * by rewrite (comparator_eq_trans _ H a b c Hab Hbc) in Hac.
      * pose proof (comparator_antisym b c H) as Hcb. rewrite Hbc in Hcb.
        simpl in Hcb.
        by rewrite (comparator_gt_trans _ H a c b Hac Hcb) in Hab.
Qed.

End standard_wording.

Section consistent_sort.
Context {A : Type} (compareFn : A → A → comparison).
Hypothesis consistent : Consistent compareFn.

Lemma compare_refl a : compareFn a a = Eq.
Proof.
  pose proof (consistent_antisym _ consistent a a) as H.
  by destruct (compareFn a a).
Qed.

Lemma compare_tied_sym a b : compareFn a b = Eq → compareFn b a = Eq.
Proof. intros H. by rewrite (consistent_antisym _ consistent), H. Qed.

Lemma compare_tied_r a b c : compareFn b c = Eq → compareFn a b = compareFn a c.
Proof.
  intros H.
  rewrite (consistent_antisym _ consistent b a),
    (consistent_antisym _ consistent c a).
  f_equal. by apply (consistent_tied _ consistent).
Qed.

Lemma notAfter_trans : Transitive (notAfter compareFn).
Proof.
  intros a b c Hab Hbc. unfold notAfter in *.
  destruct (compareFn a b) eqn:H1; [| |done].
  - by rewrite (consistent_tied _ consistent a b c).
  - destruct (compareFn b c) eqn:H2; [| |done].
    + by rewrite <- (compare_tied_r a b c), H1.
    + by rewrite (consistent_trans _ consistent a b c).
Qed.

Lemma notAfter_both a b :
  notAfter compareFn a b → notAfter compareFn b a → compareFn a b = Eq.
Proof.
  unfold notAfter. rewrite (consistent_antisym _ consistent a b).
  by destruct (compareFn a b).
Qed.

Lemma flip_consistent : Consistent (flip compareFn).
Proof.
  constructor; unfold flip.
  - intros a b. apply (consistent_antisym _ consistent).
  - intros a b c Hab Hbc. by apply (consistent_trans _ consistent c b a).
  - intros a b c Hab. rewrite (compare_tied_r c b a); [done|exact Hab].
Qed.

Lemma sort_insert_HdRel x y l :
  notAfter compareFn y x → HdRel (notAfter compareFn) y l →
  HdRel (notAfter compareFn) y (sort_insert compareFn x l).
Proof.
  intros Hyx Hl. destruct Hl as [|z l Hyz]; simpl; [by constructor|].
  destruct (compareFn x z); by constructor.
Qed.

Lemma sort_insert_Sorted x l :
  Sorted (notAfter compareFn) l →
  Sorted (notAfter compareFn) (sort_insert compareFn x l).
Proof.
  induction 1 as [|y l Hl IH Hy]; simpl; [by repeat constructor|].
  destruct (compareFn x y) eqn:Hc.
  - repeat constructor; try done. unfold notAfter. by rewrite Hc.
  - repeat constructor; try done. unfold notAfter. by rewrite Hc.
  - constructor; [done|]. apply sort_insert_HdRel; [|done].
    unfold notAfter. by rewrite (consistent_antisym _ consistent), Hc.
Qed.

Lemma sort_Sorted l : Sorted (notAfter compareFn) (sort compareFn l).
Proof.
  induction l as [|x l IH]; simpl; [constructor | by apply sort_insert_Sorted].
Qed.

Lemma sort_StronglySorted l :
  StronglySorted (notAfter compareFn) (sort compareFn l).
Proof.
  apply Sorted_StronglySorted; [apply notAfter_trans | apply sort_Sorted].
Qed.

(** Elements that the callback never orders strictly keep their order. *)
Lemma sort_insert_filter (Q : A → bool) x l :
  (∀ a b, Q a = true → Q b = true → compareFn a b ≠ Gt) →
  List.filter Q (sort_insert compareFn x l) = List.filter Q (x :: l).
Proof.
  intros HQ. induction l as [|y l IH]; [done|]. cbn [sort_insert].
  destruct (compareFn x y) eqn:Hc; try done.
  cbn [List.filter] in *. rewrite IH.
  destruct (Q x) eqn:Hx, (Q y) eqn:Hy; try done.
  by destruct (HQ x y Hx Hy).
Qed.

Lemma sort_filter (Q : A → bool) l :
  (∀ a b, Q a = true → Q b = true → compareFn a b ≠ Gt) →
  List.filter Q (sort compareFn l) = List.filter Q l.
Proof.
  intros HQ. induction l as [|x l IH]; [done|]. cbn [sort foldr].
  rewrite sort_insert_filter by done. cbn [List.filter].
  fold (sort compareFn l). by rewrite IH.
Qed.

Lemma tiedWith_sort a l :
  tiedWith compareFn a (sort compareFn l) = tiedWith compareFn a l.
Proof.
  apply sort_filter. intros x y Hx%bool_decide_eq_true Hy%bool_decide_eq_true.
  rewrite (consistent_tied _ consistent x a y), Hy; [done|].
  by apply compare_tied_sym.
Qed.

Lemma tiedWith_head a l :
  tiedWith compareFn a (a :: l) = a :: tiedWith compareFn a l.
Proof.
  unfold tiedWith. simpl.
  by rewrite (bool_decide_eq_true_2 _ (compare_refl a)).
Qed.

Lemma tiedWith_elem a x l : x ∈ tiedWith compareFn a l → x ∈ l.
Proof.
  unfold tiedWith. rewrite !list_elem_of_In, filter_In. by intros [? _].
Qed.

(** Two ordered lists in which the elements that compare as equal come in
    the same order are the same list. *)
Lemma ordered_stable_unique (l1 l2 : list A) :
  Sorted (notAfter compareFn) l1 → Sorted (notAfter compareFn) l2 →
  (∀ a, tiedWith compareFn a l1 = tiedWith compareFn a l2) → l1 = l2.
Proof.
  intros H1%Sorted_StronglySorted H2%Sorted_StronglySorted;
    [|apply notAfter_trans..].
  revert l2 H2.
  induction H1 as [|a l1 Hl1 IH Ha]; intros l2 H2 Hties.
  { destruct l2 as [|b l2]; [done|].
    specialize (Hties b). by rewrite tiedWith_head in Hties. }
  destruct H2 as [|b l2 Hl2 Hb].
  { specialize (Hties a). by rewrite tiedWith_head in Hties. }
  assert (Hab : a = b).
  { pose proof (Hties a) as Hka. pose proof (Hties b) as Hkb.
    rewrite tiedWith_head in Hka, Hkb.
    assert (Hin_a : a ∈ b :: l2).
    { apply (tiedWith_elem a). rewrite <- Hka. by left. }
    assert (Hin_b : b ∈ a :: l1).
    { apply (tiedWith_elem b). rewrite Hkb. by left. }
    apply elem_of_cons in Hin_a as [?|Hin_a]; [done|].
    apply elem_of_cons in Hin_b as [?|Hin_b]; [done|].
    rewrite Forall_forall in Ha, Hb.
    pose proof (notAfter_both a b (Ha _ Hin_b) (Hb _ Hin_a)) as Hk.
    unfold tiedWith in Hka. simpl in Hka.
    rewrite (bool_decide_eq_true_2 _ Hk) in Hka. by injection Hka. }
  subst b. f_equal. apply IH; [done|].
  intros c. specialize (Hties c). unfold tiedWith in *. simpl in Hties.
  destruct (bool_decide (compareFn c a = Eq)); [by injection Hties | done].
Qed.

(** With no ties the order is strict. *)
Lemma apart_Permutation l l' : apart compareFn l → l ≡ₚ l' → apart compareFn l'.
Proof.
  unfold apart. intros Hl Hp. revert Hl.
  induction Hp as [|x l l' Hp IH|x y l|l l' l'' _ IH1 _ IH2]; intros Hl.
  - done.
  - apply StronglySorted_cons in Hl as [Hx Hl].
    apply StronglySorted_cons. split; [by rewrite <- Hp | by apply IH].
  - apply StronglySorted_cons in Hl as [Hy Hl].
    apply StronglySorted_cons in Hl as [Hx Hl].
    apply Forall_cons_1 in Hy as [Hyx Hy].
    repeat (apply StronglySorted_cons; split); try done.
    constructor; [|done]. intros Hxy. by apply Hyx, compare_tied_sym.
  - by apply IH2, IH1.
Qed.

Lemma apart_sublist l l' : apart compareFn l → l' `sublist_of` l → apart compareFn l'.
Proof.
  unfold apart. intros Hl Hs. revert Hl.
  induction Hs as [|x l' l Hs IH|x l' l Hs IH]; intros Hl; [done|..].
  - apply StronglySorted_cons in Hl as [Hx Hl].
    apply StronglySorted_cons. split; [|by apply IH].
    eapply Forall_forall. intros y Hy.
    rewrite Forall_forall in Hx. apply Hx. by eapply elem_of_sublist.
  - apply StronglySorted_cons in Hl as [_ Hl]. by apply IH.
Qed.

Lemma sort_strict l :
  apart compareFn l →
  StronglySorted (λ a b, compareFn a b = Lt) (sort compareFn l).
Proof.
  intros Hl.
  assert (Ha : apart compareFn (sort compareFn l)).
  { eapply apart_Permutation; [exact Hl|]. by rewrite sort_Permutation. }
  pose proof (sort_StronglySorted l) as Hs.
  unfold apart in Ha. induction Hs as [|x k Hk IH Hx]; [constructor|].
  apply StronglySorted_cons in Ha as [Hne Ha].
  constructor; [by apply IH|].
  rewrite Forall_forall in *. intros y Hy.
  specialize (Hx y Hy). specialize (Hne y Hy). unfold notAfter in Hx.
  by destruct (compareFn x y).
Qed.

End consistent_sort.

Section flipped_sort.
Context {A : Type} (compareFn : A → A → comparison).
Hypothesis consistent : Consistent compareFn.

(** With no ties, sorting any arrangement with the arguments of the callback
    swapped gives the reverse. *)
Lemma sort_flip_reverse (l l' : list A) :
  apart compareFn l → l' ≡ₚ l →
  sort (flip compareFn) l' = reverse (sort compareFn l).
Proof.
  intros Hl Hp.
  pose proof (flip_consistent compareFn consistent) as Hflip.
  apply (StronglySorted_unique_strong (λ a b, flip compareFn a b = Lt)).
  - intros a b _ _ Hab Hba. unfold flip in *.
    by rewrite (consistent_antisym _ consistent), Hba in Hab.
  - apply sort_strict; [done|].
    assert (Hl' : apart compareFn l').
    { eapply apart_Permutation; [done | exact Hl | by symmetry]. }
    unfold apart, flip in *. eapply StronglySorted_ind with
      (P := StronglySorted (λ a b, compareFn b a ≠ Eq)); [| |exact Hl'].
    + constructor.
    + intros a k _ IH Ha. constructor; [done|].
      eapply Forall_impl; [exact Ha|]. intros b Hab Hba.
      by apply Hab, compare_tied_sym.
  - pose proof (sort_strict compareFn consistent l Hl) as Hs.
    apply StronglySorted_Sorted, Sorted_reverse in Hs.
    apply Sorted_StronglySorted; [|done].
    intros a b c Hab Hbc. unfold flip in *.
    by apply (consistent_trans _ consistent c b a).
  - by rewrite reverse_Permutation, !sort_Permutation.
Qed.

(** Two callbacks with the same ties: the order left by a sort with one
    does not show in a later sort with the other. *)
Lemma sort_after_sort (compareFn' : A → A → comparison) (l : list A) :
  Consistent compareFn' →
  (∀ a b, compareFn' a b = Eq ↔ compareFn a b = Eq) →
  sort compareFn (sort compareFn' l) = sort compareFn l.
Proof.
  intros Hc' Hties.
  assert (Hsame : ∀ a k, tiedWith compareFn' a k = tiedWith compareFn a k).
  { intros a k. unfold tiedWith. apply filter_ext. intros z.
    apply bool_decide_ext, Hties. }
  apply (ordered_stable_unique compareFn consistent).
  - by apply sort_Sorted.
  - by apply sort_Sorted.
  - intros a. rewrite !tiedWith_sort by done.
    by rewrite <- Hsame, tiedWith_sort, Hsame.
Qed.

End flipped_sort.

Section host_sort.
Context (toLowerCase : Host.JsString → Host.JsString).
Context (localeCompare : Host.JsString → Host.JsString → comparison).
Hypothesis consistent : Consistent localeCompare.

Lemma compareUsers_consistent o :
  Consistent (Host.compareUsers toLowerCase localeCompare o).
Proof.
  assert (Hasc : Consistent (Host.compareUsers toLowerCase localeCompare asc)).
  { constructor; unfold Host.compareUsers; intros.
    - apply (consistent_antisym _ consistent).
    - by eapply (consistent_trans _ consistent).
    - by apply (consistent_tied _ consistent). }
  destruct o; [done|].
  change (Consistent (flip (Host.compareUsers toLowerCase localeCompare asc))).
  by apply flip_consistent.
Qed.

Lemma compareUsers_desc :
  Host.compareUsers toLowerCase localeCompare desc
  = flip (Host.compareUsers toLowerCase localeCompare asc).
Proof. done. Qed.

Lemma compareUsers_same_ties o o' a b :
  Host.compareUsers toLowerCase localeCompare o' a b = Eq
  ↔ Host.compareUsers toLowerCase localeCompare o a b = Eq.
Proof.
  assert (Hsym : ∀ x y, localeCompare x y = Eq ↔ localeCompare y x = Eq).
  { intros x y. rewrite (consistent_antisym _ consistent x y).
    by destruct (localeCompare x y). }
  destruct o, o'; unfold Host.compareUsers; try done; apply Hsym.
Qed.

End host_sort.

Section unit_compare.

Lemma unitCompare_antisym s t : unitCompare t s = CompOpp (unitCompare s t).
Proof.
  revert t. induction s as [|a s IH]; intros [|b t]; simpl; try done.
  rewrite (N.compare_antisym b a). destruct (b ?= a)%N; simpl; auto.
Qed.

Lemma unitCompare_eq s t : unitCompare s t = Eq → s = t.
Proof.
  revert t. induction s as [|a s IH]; intros [|b t]; simpl; try done.
  destruct (a ?= b)%N eqn:Hab; try done.
  intros Hst. apply N.compare_eq in Hab as ->. f_equal. by apply IH.
Qed.

Lemma unitCompare_trans s t u :
  unitCompare s t = Lt → unitCompare t u = Lt → unitCompare s u = Lt.
Proof.
  revert t u. induction s as [|a s IH]; intros [|b t] [|c u]; simpl; try done.
  destruct (N.compare_spec a b) as [Hab|Hab|Hab];
    destruct (N.compare_spec b c) as [Hbc|Hbc|Hbc];
    try done; intros H1 H2.
  - rewrite Hab, Hbc, N.compare_refl. by eapply IH.
  - rewrite Hab. by apply N.compare_lt_iff in Hbc as ->.
  - rewrite <- Hbc. by apply N.compare_lt_iff in Hab as ->.
  - assert (Hac : (a < c)%N) by lia.
    by apply N.compare_lt_iff in Hac as ->.
Qed.

Lemma unitCompare_consistent : Consistent unitCompare.
Proof.
  constructor.
  - intros a b. apply unitCompare_antisym.
  - apply unitCompare_trans.
  - by intros a b c ->%unitCompare_eq.
Qed.

End unit_compare.

Section host_sort_facts.
Context (toLowerCase : Host.JsString → Host.JsString).
Context (localeCompare : Host.JsString → Host.JsString → comparison).
Hypothesis consistent : Consistent localeCompare.

Lemma host_sortedUsers_Permutation l o :
  Host.sortedUsers toLowerCase localeCompare l o ≡ₚ l.
Proof. apply sort_Permutation. Qed.

Lemma host_sortedUsers_desc_reverse (l l' : list Host.User) :
  apart (Host.compareUsers toLowerCase localeCompare asc) l → l' ≡ₚ l →
  Host.sortedUsers toLowerCase localeCompare l' desc
  = reverse (Host.sortedUsers toLowerCase localeCompare l asc).
Proof.
  intros Hl Hp. unfold Host.sortedUsers. rewrite compareUsers_desc.
  apply sort_flip_reverse; [|done..]. by apply compareUsers_consistent.
Qed.

End host_sort_facts.

(** C7, as the specification has it: with all names distinct, the descending
    order is the reverse of the ascending order. It does not hold: "Bob" and
    "bob" are distinct names with the same lowered name, the callback returns
    zero for them whatever the host's lowering does outside Basic Latin and
    whatever consistent comparison its [localeCompare] is, and the stable
    sort leaves them in collection order for both directions. *)
Lemma sort_flip_fails_on_case_twins :
  NoDup (Host.name <$> bobTwice)
  ∧ (∀ toLowerCase localeCompare,
       Host.AsciiLaw toLowerCase → Consistent localeCompare →
       let filtered := Host.filteredUsers toLowerCase bobTwice [] [] in
       let sorted := Host.sortedUsers toLowerCase localeCompare in
       filtered = bobTwice
       ∧ sorted filtered asc = bobTwice
       ∧ sorted filtered desc = bobTwice
       ∧ sorted (sorted filtered asc) desc = bobTwice
       ∧ sorted filtered desc ≠ reverse (sorted filtered asc)).
Proof.
  split; [compute_done|]. intros lower lc Hlower Hlc filtered sorted.
  assert (Hnil : lower [] = []) by (by apply asciiLaw_nil).
  assert (HB : lower (units "Bob") = units "bob").
  { rewrite Hlower; [done|]. unfold Host.isAscii. cbn.
    repeat (constructor; [lia|]). constructor. }
  assert (Hb : lower (units "bob") = units "bob").
  { rewrite Hlower; [done|]. unfold Host.isAscii. cbn.
    repeat (constructor; [lia|]). constructor. }
  assert (Hf : filtered = bobTwice).
  { unfold filtered, Host.filteredUsers, bobTwice, Host.isNameMatch,
      Host.isCompanyMatch.
    cbn [List.filter Host.truthy]. rewrite Hnil, !host_includes_nil. done. }
  assert (Ha : ∀ o, sorted bobTwice o = bobTwice).
  { intros o. unfold sorted, Host.sortedUsers, bobTwice.
    cbn [sort foldr sort_insert].
    assert (Hc : Host.compareUsers lower lc o
        (hostUser (mkUser 1 "Bob" "Acme")) (hostUser (mkUser 2 "bob" "Acme"))
        = Eq).
    { unfold Host.compareUsers, hostUser, mkUser. cbn [Host.name name].
      rewrite HB, Hb. destruct o; by apply compare_refl. }
    by rewrite Hc. }
  rewrite Hf, !Ha. done.
Qed.

(** C7, amended: on every host whose [localeCompare] is a consistent
    comparison, for every collection in which no two records have names that
    compare as equal once lowered, and every search text and category filter,
    the descending order of the filtered records is the reverse of their
    ascending order, whether the sort starts from the filter's output or from
    the array that an ascending render left sorted. *)
Theorem sort_order_flip (toLowerCase : Host.JsString → Host.JsString)
    (localeCompare : Host.JsString → Host.JsString → comparison)
    (users : list Host.User) (search companyFilter : Host.JsString) :
  Consistent localeCompare →
  apart (Host.compareUsers toLowerCase localeCompare asc) users →
  let filtered := Host.filteredUsers toLowerCase users search companyFilter in
  let sorted := Host.sortedUsers toLowerCase localeCompare in
  sorted filtered desc = reverse (sorted filtered asc)
  ∧ sorted (sorted filtered asc) desc = reverse (sorted filtered asc).
Proof.
  intros Hlc Hapart filtered sorted.
  assert (Hf : apart (Host.compareUsers toLowerCase localeCompare asc) filtered).
  { eapply apart_sublist; [exact Hapart|]. apply host_filteredUsers_sublist. }
  split; apply host_sortedUsers_desc_reverse; try done.
  apply host_sortedUsers_Permutation.
Qed.

Lemma sort_order_flip_witness :
  let users := hostUser <$> twelveUsers in
  let filtered := Host.filteredUsers sampleLower users (units "a") [] in
  let sorted := Host.sortedUsers sampleLower unitCompare in
  sorted filtered desc = reverse (sorted filtered asc)
  ∧ sorted (sorted filtered asc) desc = reverse (sorted filtered asc).
Proof.
  apply (sort_order_flip sampleLower unitCompare
           (hostUser <$> twelveUsers) (units "a") []).
  - apply unitCompare_consistent.
  - unfold apart. vm_compute.
    repeat first [apply SSorted_nil | apply SSorted_cons
                 | apply List.Forall_nil | apply List.Forall_cons];
      discriminate.
Defined.

(** X6. On every host whose [localeCompare] is a consistent comparison, and
    for both directions, the sort returns a permutation of its input in which
    no record stands before one that the callback puts earlier, and the
    records that the callback ties with any given record keep their input
    order. *)
Theorem sort_is_ordered_and_stable
    (toLowerCase : Host.JsString → Host.JsString)
    (localeCompare : Host.JsString → Host.JsString → comparison)
    (l : list Host.User) (o : SortOrder) :
  Consistent localeCompare →
  let compareFn := Host.compareUsers toLowerCase localeCompare o in
  let sorted := Host.sortedUsers toLowerCase localeCompare l o in
  sorted ≡ₚ l
  ∧ StronglySorted (notAfter compareFn) sorted
  ∧ (∀ a, tiedWith compareFn a sorted = tiedWith compareFn a l).
Proof.
  intros Hlc compareFn sorted.
  pose proof (compareUsers_consistent toLowerCase localeCompare Hlc o) as Hc.
  split; [apply sort_Permutation|]. split.
  - by apply sort_StronglySorted.
  - intros a. by apply tiedWith_sort.
Qed.

Lemma sort_is_ordered_and_stable_witness :
  let l := bobTwice ++ (hostUser <$> twelveUsers) in
  let compareFn := Host.compareUsers sampleLower unitCompare desc in
  let sorted := Host.sortedUsers sampleLower unitCompare l desc in
  sorted ≡ₚ l
  ∧ StronglySorted (notAfter compareFn) sorted
  ∧ (∀ a, tiedWith compareFn a sorted = tiedWith compareFn a l).
Proof.
  apply (sort_is_ordered_and_stable sampleLower unitCompare
           (bobTwice ++ (hostUser <$> twelveUsers)) desc).
  apply unitCompare_consistent.
Defined.

(** X7. On every host whose [localeCompare] is a consistent comparison, the
    in-place sort of an array leaves nothing behind for a later sort: sorting
    an array already sorted in either direction gives what sorting the
    original array gives, ties included, so sorting ascending, descending and
    ascending again gives the first ascending order. *)
Theorem sort_forgets_earlier_order
    (toLowerCase : Host.JsString → Host.JsString)
    (localeCompare : Host.JsString → Host.JsString → comparison)
    (l : list Host.User) (o o' : SortOrder) :
  Consistent localeCompare →
  let sorted := Host.sortedUsers toLowerCase localeCompare in
  sorted (sorted l o') o = sorted l o
  ∧ sorted (sorted (sorted l asc) desc) asc = sorted l asc.
Proof.
  intros Hlc sorted.
  assert (H : ∀ k p p', sorted (sorted k p') p = sorted k p).
  { intros k p p'. unfold sorted, Host.sortedUsers.
    apply sort_after_sort; try by apply compareUsers_consistent.
    intros a b. by apply compareUsers_same_ties. }
  split; [apply H|]. by rewrite !H.
Qed.

Lemma sort_forgets_earlier_order_witness :
  let l := bobTwice ++ (hostUser <$> twelveUsers) in
  let sorted := Host.sortedUsers sampleLower unitCompare in
  sorted (sorted l asc) desc = sorted l desc
  ∧ sorted (sorted (sorted l asc) desc) asc = sorted l asc.
Proof.
  apply (sort_forgets_earlier_order sampleLower unitCompare
           (bobTwice ++ (hostUser <$> twelveUsers)) desc asc).
  apply unitCompare_consistent.
Defined.

(** X9. Whatever the host's [toLowerCase] and [localeCompare] do, and for
    every page index, each displayed card is a record of the collection in
    whose lowered name the lowered search text occurs and whose company name
    lowers to what the selected one lowers to (or none is selected); at most
    5 cards are shown, and none twice when the collection has no repeated
    record. *)
Theorem displayed_records_match
    (toLowerCase : Host.JsString → Host.JsString)
    (localeCompare : Host.JsString → Host.JsString → comparison)
    (users : list Host.User) (search companyFilter : Host.JsString)
    (o : SortOrder) (page : Z) :
  let filtered := Host.filteredUsers toLowerCase users search companyFilter in
  let sorted := Host.sortedUsers toLowerCase localeCompare filtered o in
  let shown := Host.currentUsers sorted page in
  (∀ u, u ∈ shown →
     u ∈ users
     ∧ Host.occursIn (toLowerCase search) (toLowerCase (Host.name u))
     ∧ (companyFilter = []
        ∨ toLowerCase (Host.company_name (Host.company u))
          = toLowerCase companyFilter))
  ∧ (length shown ≤ 5)%nat
  ∧ (NoDup users → NoDup shown).
Proof.
  intros filtered sorted shown.
  assert (Hsub : shown `sublist_of` sorted).
  { unfold shown, Host.currentUsers, slice. cbv zeta.
    etrans; [apply sublist_take | apply sublist_drop]. }
  assert (Hperm : sorted ≡ₚ filtered) by apply sort_Permutation.
  split; [|split].
  - intros u Hu. apply (host_filteredUsers_elem toLowerCase).
    fold filtered. rewrite <- Hperm. by eapply elem_of_sublist.
  - apply slice_length;
      unfold indexOfFirstUser, indexOfLastUser, usersPerPage; lia.
  - intros Hnd. eapply sublist_NoDup; [|exact Hsub]. rewrite Hperm.
    eapply sublist_NoDup; [exact Hnd|]. apply host_filteredUsers_sublist.
Qed.

(** ** The 8-bit strings and the host's strings on Basic Latin text *)

Section basic_latin.
Context (toLowerCase' : Host.JsString → Host.JsString).
Context (localeCompare : Host.JsString → Host.JsString → comparison).
Hypothesis lowers_ascii : Host.AsciiLaw toLowerCase'.

Lemma units_inj s t : units s = units t → s = t.
Proof.
  revert t. induction s as [|a s IH]; intros [|b t]; cbn [units]; try done.
  intros [= Hab Hst]. f_equal; [|by apply IH].
  by rewrite <- (ascii_N_embedding a), Hab, ascii_N_embedding.
Qed.

Lemma units_lowerChar a : N_of_ascii (lowerChar a) = Host.asciiLower (N_of_ascii a).
Proof.
  unfold lowerChar, Host.asciiLower. cbv zeta.
  destruct (_ && _) eqn:Hc; [|done].
  apply andb_true_iff in Hc as [_ Hc%N.leb_le].
  apply N_ascii_embedding. lia.
Qed.

Lemma units_toLowerCase s :
  units (toLowerCase s) = Host.asciiLower <$> units s.
Proof.
  induction s as [|a s IH]; [done|].
  cbn [toLowerCase units fmap list_fmap]. by rewrite units_lowerChar, IH.
Qed.

Lemma units_lowered s :
  basicLatin s → toLowerCase' (units s) = units (toLowerCase s).
Proof. intros Hs. by rewrite units_toLowerCase, lowers_ascii. Qed.

Lemma units_startsWith s t :
  Host.startsWith (units s) (units t) = startsWith s t.
Proof.
  revert s. induction t as [|b t IH]; intros [|a s]; try done.
  cbn [units Host.startsWith startsWith]. rewrite IH. f_equal.
  apply bool_decide_ext. split; [|by intros ->].
  intros H. by rewrite <- (ascii_N_embedding a), H, ascii_N_embedding.
Qed.

Lemma units_includes s t : Host.includes (units s) (units t) = includes s t.
Proof.
  induction s as [|a s IH].
  - cbn [units Host.includes includes].
    by rewrite <- (units_startsWith EmptyString t).
  - cbn [units Host.includes includes].
    by rewrite <- (units_startsWith (String a s) t), IH.
Qed.

Lemma units_truthy s : Host.truthy (units s) = truthy s.
Proof. by destruct s. Qed.

Lemma host_isNameMatch_units search u :
  basicLatin (name u) → basicLatin search →
  Host.isNameMatch toLowerCase' (units search) (hostUser u)
  = isNameMatch search u.
Proof.
  intros Hn Hs. unfold Host.isNameMatch, isNameMatch, hostUser.
  cbn [Host.name]. rewrite !units_lowered by done. apply units_includes.
Qed.

Lemma host_isCompanyMatch_units companyFilter u :
  basicLatin (company_name (company u)) → basicLatin companyFilter →
  Host.isCompanyMatch toLowerCase' (units companyFilter) (hostUser u)
  = isCompanyMatch companyFilter u.
Proof.
  intros Hc Hf. unfold Host.isCompanyMatch, isCompanyMatch, hostUser.
  cbn [Host.company Host.company_name]. rewrite units_truthy.
  destruct (truthy companyFilter); [|done].
  rewrite !units_lowered by done.
  apply bool_decide_ext. split; [apply units_inj | by intros ->].
Qed.

Lemma host_filteredUsers_units users search companyFilter :
  Forall basicLatinUser users → basicLatin search → basicLatin companyFilter →
  Host.filteredUsers toLowerCase' (hostUser <$> users)
    (units search) (units companyFilter)
  = hostUser <$> filteredUsers users search companyFilter.
Proof.
  intros Hu Hs Hf. unfold Host.filteredUsers, filteredUsers.
  induction Hu as [|u users [Hn Hc] _ IH]; [done|].
  cbn [fmap list_fmap List.filter].
  rewrite host_isNameMatch_units, host_isCompanyMatch_units by done.
  destruct (_ && _); cbn [fmap list_fmap]; [f_equal|]; exact IH.
Qed.

Lemma host_compareUsers_units o a b :
  basicLatinUser a → basicLatinUser b →
  Host.compareUsers toLowerCase' localeCompare o (hostUser a) (hostUser b)
  = compareUsers (onUnits localeCompare) o a b.
Proof.
  intros [Ha _] [Hb _]. unfold Host.compareUsers, compareUsers, onUnits, hostUser.
  cbn [Host.name]. cbv zeta. by rewrite !units_lowered.
Qed.

Lemma host_sortedUsers_units l o :
  Forall basicLatinUser l →
  Host.sortedUsers toLowerCase' localeCompare (hostUser <$> l) o
  = hostUser <$> sortedUsers (onUnits localeCompare) l o.
Proof.
  intros Hl. unfold Host.sortedUsers, sortedUsers.
  induction Hl as [|u l Hu Hl IH]; [done|].
  cbn [fmap list_fmap sort foldr].
  fold (sort (Host.compareUsers toLowerCase' localeCompare o) (hostUser <$> l)).
  fold (sort (compareUsers (onUnits localeCompare) o) l).
  rewrite IH.
  assert (Hk : Forall basicLatinUser (sort (compareUsers (onUnits localeCompare) o) l)).
  { by rewrite sort_Permutation. }
  clear IH. induction Hk as [|v k Hv Hk IHk]; [done|].
  cbn [fmap list_fmap sort_insert].
  rewrite host_compareUsers_units by done.
  destruct (compareUsers _ _ _ _); try done.
  cbn [fmap list_fmap]. f_equal. exact IHk.
Qed.

Lemma slice_fmap {A B} (f : A → B) (l : list A) a b :
  slice (f <$> l) a b = f <$> slice l a b.
Proof. unfold slice. cbv zeta. by rewrite length_fmap, fmap_take, fmap_drop. Qed.

(** On a collection and queries in Basic Latin, the records shown by the
    8-bit pipeline are those shown on every host whose [toLowerCase] lowers
    the letters A-Z of such text, whatever it does elsewhere, with the host's
    own [localeCompare]. *)
Theorem basic_latin_pipeline users search companyFilter o page :
  Forall basicLatinUser users → basicLatin search → basicLatin companyFilter →
  Host.currentUsers
    (Host.sortedUsers toLowerCase' localeCompare
       (Host.filteredUsers toLowerCase' (hostUser <$> users)
          (units search) (units companyFilter)) o) page
  = hostUser <$>
      currentUsers
        (sortedUsers (onUnits localeCompare)
           (filteredUsers users search companyFilter) o) page.
Proof.
  intros Hu Hs Hf.
  rewrite host_filteredUsers_units by done.
  rewrite host_sortedUsers_units; [apply slice_fmap|].
  eapply Forall_forall. intros u Hin. rewrite Forall_forall in Hu.
  apply Hu. eapply elem_of_sublist; [exact Hin|]. apply filteredUsers_sublist.
Qed.

End basic_latin.
